(** * mackerel-plugin-dnsdist: a shallow embedding of [main.go]

    The plugin polls the JSON statistics endpoint of dnsdist and hands a
    metric map and a graph catalog to the mackerel plugin host.  This file
    embeds [cmd/mackerel-plugin-dnsdist/main.go] function by function and
    proves the properties of its specification.

    Go strings and byte slices are byte sequences: a Go [string] is a Rocq
    [string] (a list of [ascii], one per byte) and a [[]byte] is a
    [list ascii].  The functions of the Go standard library that [main.go]
    calls ([net.JoinHostPort], [url.URL.String], [strings.Title],
    [regexp], [fmt.Sprintf "%v"], [strconv.ParseFloat], [http.Client.Do])
    come first, each in a module named after its Go package; the types
    and methods of [main.go] follow in the modules [Opt] and [Plugin]. *)

From Stdlib Require Import ZArith Ascii String List Bool Lia.
From Stdlib Require Import Floats.SpecFloat.
From stdpp Require Import base gmap strings list fin_maps.

Local Open Scope Z_scope.

(** ** Bytes *)

Definition byte_val (c : ascii) : Z := Z.of_N (N_of_ascii c).

Definition byte_of_Z (z : Z) : ascii := ascii_of_N (Z.to_N (z mod 256)).

Definition dquote : ascii := "034"%char.
Definition newline : ascii := "010"%char.

Definition in_range (lo hi c : ascii) : bool :=
  (byte_val lo <=? byte_val c) && (byte_val c <=? byte_val hi).

Definition one_of (set : string) (c : ascii) : bool :=
  existsb (Ascii.eqb c) (list_ascii_of_string set).

Definition is_digit (c : ascii) : bool := in_range "0" "9" c.
Definition is_lower (c : ascii) : bool := in_range "a" "z" c.
Definition is_upper (c : ascii) : bool := in_range "A" "Z" c.
Definition is_alnum (c : ascii) : bool := is_lower c || is_upper c || is_digit c.

Fixpoint string_forallb (p : ascii -> bool) (s : string) : bool :=
  match s with
  | EmptyString => true
  | String c s' => p c && string_forallb p s'
  end.

Fixpoint string_existsb (p : ascii -> bool) (s : string) : bool :=
  match s with
  | EmptyString => false
  | String c s' => p c || string_existsb p s'
  end.

Definition is_empty (s : string) : bool :=
  match s with EmptyString => true | _ => false end.

(** ** Package [net]: [JoinHostPort] *)

Module net.

(** [JoinHostPort] assumes that a host with a colon is a literal IPv6
    address and wraps it in square brackets. *)
Definition JoinHostPort (host port : string) : string :=
  if string_existsb (Ascii.eqb ":") host
  then "[" +:+ host +:+ "]:" +:+ port
  else host +:+ ":" +:+ port.

End net.

(** ** Package [net/url]: [URL.String] *)

Module url.

Inductive encoding :=
| encodePath | encodePathSegment | encodeHost | encodeZone
| encodeUserPassword | encodeQueryComponent | encodeFragment.

Definition is_host_mode (mode : encoding) : bool :=
  match mode with encodeHost | encodeZone => true | _ => false end.

(** [shouldEscape c mode]: must byte [c] be percent-encoded in the part of
    the URL that [mode] names. *)
Definition shouldEscape (c : ascii) (mode : encoding) : bool :=
  if is_alnum c then false
  else if is_host_mode mode && one_of ("!$&'()*+,;=:[]<>" +:+ String dquote "") c
  then false
  else if one_of "-_.~" c then false
  else if one_of "$&+,/:;=?@" c then
    match mode with
    | encodePath => Ascii.eqb c "?"
    | encodePathSegment => one_of "/;,?" c
    | encodeUserPassword => one_of "@/?:" c
    | encodeQueryComponent => true
    | encodeFragment => false
    | encodeHost | encodeZone => true
    end
  else match mode with
       | encodeFragment => negb (one_of "!()*" c)
       | _ => true
       end.

Definition upperhex (n : Z) : ascii :=
  if n <? 10 then byte_of_Z (48 + n) else byte_of_Z (55 + n).

Definition escape_byte (mode : encoding) (c : ascii) : string :=
  if shouldEscape c mode then
    match mode with
    | encodeQueryComponent =>
        if Ascii.eqb c " " then "+"
        else String "%" (String (upperhex (byte_val c / 16))
                           (String (upperhex (byte_val c mod 16)) ""))
    | _ => String "%" (String (upperhex (byte_val c / 16))
                         (String (upperhex (byte_val c mod 16)) ""))
    end
  else String c "".

Fixpoint escape (s : string) (mode : encoding) : string :=
  match s with
  | EmptyString => ""
  | String c s' => escape_byte mode c +:+ escape s' mode
  end.

(** The fields of [url.URL] that [Opt.URL] sets; every other field keeps
    its zero value ([Opaque], [RawPath], [Fragment] empty, [User] nil,
    [ForceQuery] and [OmitHost] false). *)
Record URL := {
  Scheme : string;
  Host : string;
  Path : string;
  RawQuery : string;
}.

Definition EscapedPath (u : URL) : string :=
  if String.eqb (Path u) "*" then "*" else escape (Path u) encodePath.

(** The first path segment, up to the first slash. *)
Fixpoint first_segment (s : string) : string :=
  match s with
  | EmptyString => ""
  | String c s' => if Ascii.eqb c "/" then "" else String c (first_segment s')
  end.

Definition starts_with_slash (s : string) : bool :=
  match s with String c _ => Ascii.eqb c "/" | EmptyString => false end.

Definition URL_String (u : URL) : string :=
  let buf := if is_empty (Scheme u) then "" else Scheme u +:+ ":" in
  let buf :=
    if negb (is_empty (Scheme u)) || negb (is_empty (Host u)) then
      let buf :=
        if negb (is_empty (Host u)) || negb (is_empty (Path u))
        then buf +:+ "//" else buf in
      if negb (is_empty (Host u)) then buf +:+ escape (Host u) encodeHost
      else buf
    else buf in
  let path := EscapedPath u in
  let buf :=
    if negb (is_empty path) && negb (starts_with_slash path)
       && negb (is_empty (Host u))
    then buf +:+ "/" else buf in
  let buf :=
    if is_empty buf && string_existsb (Ascii.eqb ":") (first_segment path)
    then buf +:+ "./" else buf in
  let buf := buf +:+ path in
  if is_empty (RawQuery u) then buf else buf +:+ "?" +:+ RawQuery u.

End url.

(** ** Package [unicode/utf8] *)

Module utf8.

Definition RuneError : Z := 0xFFFD.
Definition MaxRune : Z := 0x10FFFF.

Definition between (lo hi : Z) (c : ascii) : bool :=
  (lo <=? byte_val c) && (byte_val c <=? hi).

Definition low6 (c : ascii) : Z := Z.land (byte_val c) 0x3F.

(** [DecodeRuneInString s]: the first rune of [s] and its width in bytes.
    A byte that does not start a well-formed encoding decodes to
    [RuneError] with width 1; the empty string to [RuneError], width 0. *)
Definition DecodeRuneInString (s : string) : Z * nat :=
  match s with
  | EmptyString => (RuneError, 0%nat)
  | String b0 s1 =>
      let x0 := byte_val b0 in
      if x0 <? 0x80 then (x0, 1%nat)
      else if (0xC2 <=? x0) && (x0 <=? 0xDF) then
        match s1 with
        | String b1 _ =>
            if between 0x80 0xBF b1
            then (Z.lor (Z.shiftl (Z.land x0 0x1F) 6) (low6 b1), 2%nat)
            else (RuneError, 1%nat)
        | _ => (RuneError, 1%nat)
        end
      else if (0xE0 <=? x0) && (x0 <=? 0xEF) then
        let lo := if x0 =? 0xE0 then 0xA0 else 0x80 in
        let hi := if x0 =? 0xED then 0x9F else 0xBF in
        match s1 with
        | String b1 (String b2 _) =>
            if between lo hi b1 && between 0x80 0xBF b2
            then (Z.lor (Z.shiftl (Z.land x0 0x0F) 12)
                    (Z.lor (Z.shiftl (low6 b1) 6) (low6 b2)), 3%nat)
            else (RuneError, 1%nat)
        | _ => (RuneError, 1%nat)
        end
      else if (0xF0 <=? x0) && (x0 <=? 0xF4) then
        let lo := if x0 =? 0xF0 then 0x90 else 0x80 in
        let hi := if x0 =? 0xF4 then 0x8F else 0xBF in
        match s1 with
        | String b1 (String b2 (String b3 _)) =>
            if between lo hi b1 && between 0x80 0xBF b2 && between 0x80 0xBF b3
            then (Z.lor (Z.shiftl (Z.land x0 0x07) 18)
                    (Z.lor (Z.shiftl (low6 b1) 12)
                       (Z.lor (Z.shiftl (low6 b2) 6) (low6 b3))), 4%nat)
            else (RuneError, 1%nat)
        | _ => (RuneError, 1%nat)
        end
      else (RuneError, 1%nat)
  end.

Definition tail_byte (r : Z) (shift : Z) : ascii :=
  byte_of_Z (Z.lor 0x80 (Z.land (Z.shiftr r shift) 0x3F)).

Definition encode3 (r : Z) : string :=
  String (byte_of_Z (Z.lor 0xE0 (Z.shiftr r 12)))
    (String (tail_byte r 6) (String (tail_byte r 0) "")).

(** [EncodeRune r]: the UTF-8 bytes of [r]; a surrogate or a value out of
    range is written as [RuneError]. *)
Definition EncodeRune (r : Z) : string :=
  if (0 <=? r) && (r <? 0x80) then String (byte_of_Z r) ""
  else if (0 <=? r) && (r <=? 0x7FF) then
    String (byte_of_Z (Z.lor 0xC0 (Z.shiftr r 6))) (String (tail_byte r 0) "")
  else if (r <? 0) || (MaxRune <? r) || ((0xD800 <=? r) && (r <=? 0xDFFF))
  then encode3 RuneError
  else if r <=? 0xFFFF then encode3 r
  else String (byte_of_Z (Z.lor 0xF0 (Z.shiftr r 18)))
         (String (tail_byte r 12) (String (tail_byte r 6)
            (String (tail_byte r 0) ""))).

End utf8.

(** ** Package [unicode]

    The tables of the Unicode database are not part of the program; they
    are taken as a parameter.  Each field is consulted above U+007F only:
    on ASCII the functions below are the closed code of the library. *)

Record UnicodeTables := {
  CaseRanges_title : Z -> Z;   (* [To(TitleCase, r)] *)
  table_IsLetter : Z -> bool;
  table_IsDigit : Z -> bool;
  table_IsSpace : Z -> bool;
}.

Module unicode.

Definition MaxASCII : Z := 0x7F.

Definition ToTitle (u : UnicodeTables) (r : Z) : Z :=
  if r <=? MaxASCII then
    (if (97 <=? r) && (r <=? 122) then r - 32 else r)
  else CaseRanges_title u r.

End unicode.

(** ** Package [strings]: [Title] *)

Module strings.

Fixpoint drop_bytes (n : nat) (s : string) : string :=
  match n, s with
  | S n', String _ s' => drop_bytes n' s'
  | _, _ => s
  end.

Definition isSeparator (u : UnicodeTables) (r : Z) : bool :=
  if r <=? 0x7F then
    negb (((48 <=? r) && (r <=? 57)) || ((97 <=? r) && (r <=? 122))
          || ((65 <=? r) && (r <=? 90)) || (r =? 95))
  else if table_IsLetter u r || table_IsDigit u r then false
  else table_IsSpace u r.

(** [Title] maps the runes of [s] in order; [prev] is the rune seen
    before, a space at the start.  The rune after a separator is mapped to
    title case, every other rune is kept; a rune mapped to a negative
    value is dropped.  [fuel] bounds the number of runes; the length of
    [s] in bytes is enough. *)
Fixpoint Title_from (u : UnicodeTables) (fuel : nat) (prev : Z) (s : string)
  : string :=
  match fuel with
  | O => ""
  | S fuel' =>
      match s with
      | EmptyString => ""
      | String _ _ =>
          let '(c, width) := utf8.DecodeRuneInString s in
          let r := if isSeparator u prev then unicode.ToTitle u c else c in
          (if 0 <=? r then utf8.EncodeRune r else "")
          +:+ Title_from u fuel' c (drop_bytes width s)
      end
  end.

Definition Title (u : UnicodeTables) (s : string) : string :=
  Title_from u (String.length s) 32 s.

End strings.

(** ** Package [go-mackerel-plugin]: graph definitions *)

Module mp.

(** [type Metrics struct]; its field [Label] is [MLabel] here, and its
    field [Scale], which the plugin never sets, is left out. *)
Record Metrics_t := {
  Name : string;
  MLabel : string;
  Diff : bool;
  Stacked : bool;
}.

(** [type Graphs struct] *)
Record Graphs := {
  Label : string;
  Unit : string;
  Metrics : list Metrics_t;
}.

End mp.

(** ** Package [regexp]

    The syntax tree of the constructs that [apiKeyRegexp] is made of, and
    the leftmost-first (backtracking) search that Go's [regexp] specifies
    for them.  The input is a byte slice.  Go steps over it rune by rune;
    as the literals of the pattern are ASCII, and no byte of a multi-byte
    encoding is ASCII, stepping byte by byte finds the same matches. *)

Module regexp.

Inductive node :=
| Lit (s : list ascii)                  (* a literal string *)
| Star (cls : ascii -> bool)            (* [c*], greedy *)
| LazyPlusGroup (cls : ascii -> bool)   (* [(c+?)], the capturing group *)
| WordBoundary.                         (* [\b] *)

Definition Regexp := list node.

(** [.]: any character but a line break (flag [s] is off). *)
Definition any_char_not_nl (c : ascii) : bool := negb (Ascii.eqb c newline).

(** [\s]: the Perl class, tab, line feed, form feed, carriage return and
    space. *)
Definition perl_space (c : ascii) : bool :=
  let n := byte_val c in
  (n =? 9) || (n =? 10) || (n =? 12) || (n =? 13) || (n =? 32).

(** [\w]: ASCII word characters. *)
Definition is_word_char (c : ascii) : bool := is_alnum c || Ascii.eqb c "_".

Definition is_word (o : option ascii) : bool :=
  match o with Some c => is_word_char c | None => false end.

Fixpoint strip_prefix (lit inp : list ascii) : option (list ascii) :=
  match lit, inp with
  | [], _ => Some inp
  | c :: lit', x :: inp' =>
      if Ascii.eqb c x then strip_prefix lit' inp' else None
  | _ :: _, [] => None
  end.

(** The byte before the position reached after reading [w]. *)
Definition last_of (prev : option ascii) (w : list ascii) : option ascii :=
  fold_left (fun _ x => Some x) w prev.

(** The result of a match at a position: the text matched, the text of
    group 1, and the input that follows the match. *)
Definition match_at := (list ascii * list ascii * list ascii)%type.

(** [match_here re prev inp]: the match of [re] at the start of [inp]
    that a backtracking matcher finds first; [prev] is the byte before. *)
Fixpoint match_here (re : Regexp)
  : option ascii -> list ascii -> option match_at :=
  match re with
  | [] => fun _ inp => Some ([], [], inp)
  | Lit s :: re' => fun prev inp =>
      match strip_prefix s inp with
      | Some rest =>
          match match_here re' (last_of prev s) rest with
          | Some (w, g, r) => Some (s ++ w, g, r)
          | None => None
          end
      | None => None
      end
  | WordBoundary :: re' => fun prev inp =>
      if xorb (is_word prev) (is_word (head inp))
      then match_here re' prev inp else None
  | Star cls :: re' =>
      fix star (prev : option ascii) (inp : list ascii) {struct inp} :=
        match inp with
        | x :: xs =>
            if cls x then
              match star (Some x) xs with
              | Some (w, g, r) => Some (x :: w, g, r)
              | None => match_here re' prev inp
              end
            else match_here re' prev inp
        | [] => match_here re' prev []
        end
  | LazyPlusGroup cls :: re' =>
      fix lazy (prev : option ascii) (inp : list ascii) {struct inp} :=
        match inp with
        | x :: xs =>
            if cls x then
              match match_here re' (Some x) xs with
              | Some (w, _, r) => Some (x :: w, [x], r)
              | None =>
                  match lazy (Some x) xs with
                  | Some (w, g, r) => Some (x :: w, x :: g, r)
                  | None => None
                  end
              end
            else None
        | [] => None
        end
  end.

(** The leftmost match in [inp]: the number of bytes skipped before it,
    and the match. *)
Fixpoint find_from (re : Regexp) (prev : option ascii) (inp : list ascii)
  : option (nat * match_at) :=
  match match_here re prev inp with
  | Some m => Some (O, m)
  | None =>
      match inp with
      | x :: xs =>
          match find_from re (Some x) xs with
          | Some (k, m) => Some (S k, m)
          | None => None
          end
      | [] => None
      end
  end.

Record Submatch := { whole : list ascii; group1 : list ascii }.

Definition byte_before (buf : list ascii) (pos : nat) : option ascii :=
  match pos with O => None | S k => buf !! k end.

(** [doExecute re buf pos]: the leftmost match at or after [pos], as its
    start and end offsets and its texts. *)
Definition doExecute (re : Regexp) (buf : list ascii) (pos : nat)
  : option (nat * nat * Submatch) :=
  match find_from re (byte_before buf pos) (drop pos buf) with
  | Some (k, (w, g, _)) =>
      Some ((pos + k)%nat, (pos + k + length w)%nat,
            {| whole := w; group1 := g |})
  | None => None
  end.

(** The loop of [allMatches]: successive matches that do not overlap.  An
    empty match right after the previous match is not delivered, and after
    an empty match the search moves on by one rune.  [n] bounds the
    matches delivered; [fuel] bounds the iterations. *)
Fixpoint allMatches (fuel : nat) (re : Regexp) (buf : list ascii)
  (n pos : nat) (prevMatchEnd : option nat) : list Submatch :=
  match fuel with
  | O => []
  | S fuel' =>
      if (n =? 0)%nat || (length buf <? pos)%nat then []
      else
        match doExecute re buf pos with
        | None => []
        | Some (start, stop, m) =>
            let empty := (stop =? pos)%nat in
            let accept :=
              negb (empty && bool_decide (Some start = prevMatchEnd)) in
            let width :=
              snd (utf8.DecodeRuneInString
                     (string_of_list_ascii (drop pos buf))) in
            let pos' :=
              if empty then
                (if (0 <? width)%nat then (pos + width)%nat
                 else S (length buf))
              else stop in
            if accept
            then m :: allMatches fuel' re buf (n - 1) pos' (Some stop)
            else allMatches fuel' re buf n pos' (Some stop)
        end
  end.

(** [FindAllSubmatch buf (-1)]: a negative count stands for
    [len(buf) + 1]. *)
Definition FindAllSubmatch (re : Regexp) (buf : list ascii) : list Submatch :=
  allMatches (length buf + 2) re buf (length buf + 1) 0 None.

End regexp.

(** ** Package [strconv]: [ParseFloat]

    [ParseFloat s 64] reads [s] with the grammar of [special] and
    [readFloat] and returns the float64 nearest to the number read, ties to
    even.  A [float64] is a [spec_float] of precision 53 and maximal
    exponent 1024.  The error result is [None]: a syntax error, or a range
    error when the number rounds to an infinity. *)

Module strconv.

Definition float64 := spec_float.
Definition prec : Z := 53.
Definition emax : Z := 1024.

(** [lower c]: [c | ('x' - 'X')]. *)
Definition lower (c : ascii) : ascii := byte_of_Z (Z.lor (byte_val c) 32).

Fixpoint commonPrefixLenIgnoreCase (s pre : string) : nat :=
  match s, pre with
  | String c s', String p pre' =>
      let c' := if is_upper c then byte_of_Z (byte_val c + 32) else c in
      if Ascii.eqb c' p then S (commonPrefixLenIgnoreCase s' pre') else O
  | _, _ => O
  end.

Definition inf_prefix_len (s : string) : option nat :=
  let n := commonPrefixLenIgnoreCase s "infinity" in
  let n := if (3 <? n)%nat && (n <? 8)%nat then 3%nat else n in
  if (n =? 3)%nat || (n =? 8)%nat then Some n else None.

(** [special s]: the value and the length of a prefix of [s] that reads
    as a signed infinity or as NaN. *)
Definition special (s : string) : option (float64 * nat) :=
  match s with
  | EmptyString => None
  | String c s' =>
      if Ascii.eqb c "+" || Ascii.eqb c "-" then
        match inf_prefix_len s' with
        | Some n => Some (S754_infinity (Ascii.eqb c "-"), S n)
        | None => None
        end
      else if Ascii.eqb c "i" || Ascii.eqb c "I" then
        match inf_prefix_len s with
        | Some n => Some (S754_infinity false, n)
        | None => None
        end
      else if Ascii.eqb c "n" || Ascii.eqb c "N" then
        if (commonPrefixLenIgnoreCase s "nan" =? 3)%nat
        then Some (S754_nan, 3%nat) else None
      else None
  end.

(** The state of the digit loop of [readFloat].  [mantissa] holds every
    digit read after the leading zeros, [nd] counts them, [dp] is the
    position of the point. *)
Record digits := {
  sawdot : bool;
  sawdigits : bool;
  nd : Z;
  dp : Z;
  mantissa : Z;
  underscores : bool;
}.

Definition digits0 : digits :=
  {| sawdot := false; sawdigits := false; nd := 0; dp := 0; mantissa := 0;
     underscores := false |}.

Definition is_hex_letter (c : ascii) : bool := in_range "a" "f" (lower c).

Fixpoint read_digits (hex : bool) (st : digits) (s : string)
  : digits * string :=
  match s with
  | EmptyString => (st, s)
  | String c s' =>
      if Ascii.eqb c "_" then
        read_digits hex
          {| sawdot := sawdot st; sawdigits := sawdigits st; nd := nd st;
             dp := dp st; mantissa := mantissa st; underscores := true |} s'
      else if Ascii.eqb c "." then
        if sawdot st then (st, s)
        else read_digits hex
               {| sawdot := true; sawdigits := sawdigits st; nd := nd st;
                  dp := nd st; mantissa := mantissa st;
                  underscores := underscores st |} s'
      else if is_digit c then
        if Ascii.eqb c "0" && (nd st =? 0) then
          read_digits hex
            {| sawdot := sawdot st; sawdigits := true; nd := nd st;
               dp := dp st - 1; mantissa := mantissa st;
               underscores := underscores st |} s'
        else
          read_digits hex
            {| sawdot := sawdot st; sawdigits := true; nd := nd st + 1;
               dp := dp st;
               mantissa := mantissa st * (if hex then 16 else 10)
                           + (byte_val c - 48);
               underscores := underscores st |} s'
      else if hex && is_hex_letter c then
        read_digits hex
          {| sawdot := sawdot st; sawdigits := true; nd := nd st + 1;
             dp := dp st;
             mantissa := mantissa st * 16 + (byte_val (lower c) - 97 + 10);
             underscores := underscores st |} s'
      else (st, s)
  end.

(** The digits of the exponent: the value read so far stops growing at
    10000; the result is the value, whether an underscore was seen, and
    the rest of the input. *)
Fixpoint read_exp_digits (e : Z) (us : bool) (s : string)
  : Z * bool * string :=
  match s with
  | EmptyString => (e, us, s)
  | String c s' =>
      if Ascii.eqb c "_" then read_exp_digits e true s'
      else if is_digit c then
        read_exp_digits (if e <? 10000 then e * 10 + (byte_val c - 48) else e)
          us s'
      else (e, us, s)
  end.

Fixpoint take_bytes (n : nat) (s : string) : string :=
  match n, s with
  | S n', String c s' => String c (take_bytes n' s')
  | _, _ => ""
  end.

(** [underscoreOK s]: an underscore stands only between digits, or
    between a base prefix and a digit.  [saw] is the kind of the byte
    before: 0 start, 1 digit or base prefix, 2 underscore, 3 other. *)
Fixpoint underscore_scan (hex : bool) (saw : nat) (s : string) : bool :=
  match s with
  | EmptyString => negb (saw =? 2)%nat
  | String c s' =>
      if is_digit c || (hex && is_hex_letter c) then underscore_scan hex 1 s'
      else if Ascii.eqb c "_" then
        if (saw =? 1)%nat then underscore_scan hex 2 s' else false
      else if (saw =? 2)%nat then false
      else underscore_scan hex 3 s'
  end.

Definition underscoreOK (s : string) : bool :=
  let s := match s with
           | String c s' =>
               if Ascii.eqb c "-" || Ascii.eqb c "+" then s' else s
           | _ => s
           end in
  match s with
  | String c0 (String c1 s') =>
      if Ascii.eqb c0 "0"
         && (Ascii.eqb (lower c1) "b" || Ascii.eqb (lower c1) "o"
             || Ascii.eqb (lower c1) "x")
      then underscore_scan (Ascii.eqb (lower c1) "x") 1 s'
      else underscore_scan false 0 s
  | _ => underscore_scan false 0 s
  end.

(** What [readFloat] returns when it succeeds: the sign, the base, the
    digits as an integer, the exponent of the base (10, or 2 for a
    hexadecimal mantissa), and the rest of the input. *)
Record number := {
  neg : bool;
  hex : bool;
  mant : Z;
  exp : Z;
  rest : string;
}.

Definition readFloat (s : string) : option number :=
  match s with
  | EmptyString => None
  | String c0 s0 =>
      let neg := Ascii.eqb c0 "-" in
      let s1 := if Ascii.eqb c0 "+" || Ascii.eqb c0 "-" then s0 else s in
      let '(hex, s2) :=
        match s1 with
        | String a (String b (String c s')) =>
            if Ascii.eqb a "0" && Ascii.eqb (lower b) "x"
            then (true, String c s') else (false, s1)
        | _ => (false, s1)
        end in
      let '(st, s3) := read_digits hex digits0 s2 in
      if negb (sawdigits st) then None
      else
        let dp := if sawdot st then dp st else nd st in
        let dp := if hex then dp * 4 else dp in
        let ndMant := if hex then nd st * 4 else nd st in
        let after_exp :=
          match s3 with
          | String e s4 =>
              if Ascii.eqb (lower e) (if hex then "p" else "e") then
                match s4 with
                | EmptyString => None
                | String sg s5 =>
                    let esign := if Ascii.eqb sg "-" then (-1) else 1 in
                    let s6 :=
                      if Ascii.eqb sg "+" || Ascii.eqb sg "-" then s5 else s4 in
                    match s6 with
                    | String d _ =>
                        if is_digit d then
                          let '(e, us, s7) := read_exp_digits 0 false s6 in
                          Some (dp + e * esign, us, s7)
                        else None
                    | EmptyString => None
                    end
                end
              else if hex then None
              else Some (dp, false, s3)
          | EmptyString => if hex then None else Some (dp, false, s3)
          end in
        match after_exp with
        | None => None
        | Some (dp, us, s8) =>
            let consumed := take_bytes (String.length s - String.length s8) s in
            if (underscores st || us) && negb (underscoreOK consumed)
            then None
            else Some {| neg := neg; hex := hex; mant := mantissa st;
                         exp := if mantissa st =? 0 then 0 else dp - ndMant;
                         rest := s8 |}
        end
  end.

(** The float64 nearest to [m * 2^e], ties to even. *)
Definition round_binary (sign : bool) (m e : Z) : float64 :=
  match m with
  | Zpos p => binary_round prec emax sign p e
  | _ => S754_zero sign
  end.

(** The float64 nearest to [m * 10^e], ties to even: an integer is
    rounded as it is, a quotient by a power of ten is rounded once, from
    the quotient and the remainder of the division. *)
Definition round_decimal (sign : bool) (m e : Z) : float64 :=
  match m with
  | Zpos p =>
      if 0 <=? e then binary_round prec emax sign (Z.to_pos (Zpos p * 10 ^ e)) 0
      else SFdiv prec emax (S754_finite sign p 0)
             (S754_finite false (Z.to_pos (10 ^ (- e))) 0)
  | _ => S754_zero sign
  end.

Definition is_infinity (f : float64) : bool :=
  match f with S754_infinity _ => true | _ => false end.

(** [ParseFloat s 64] *)
Definition ParseFloat (s : string) : option float64 :=
  match special s with
  | Some (f, n) => if (n =? String.length s)%nat then Some f else None
  | None =>
      match readFloat s with
      | None => None
      | Some num =>
          if negb (is_empty (rest num)) then None
          else
            let f := if hex num then round_binary (neg num) (mant num) (exp num)
                     else round_decimal (neg num) (mant num) (exp num) in
            if is_infinity f then None else Some f
      end
  end.

End strconv.

(** ** Package [encoding/json]: the decoder

    The scanner reads the body into a syntax tree in which a number is
    the text of its literal.  The decoder turns the tree into Go values:
    [nil], [bool], [string], [[]interface{}], [map[string]interface{}],
    and for a number a [json.Number], the text of the literal, when
    [UseNumber] was called, a [float64] otherwise. *)

Module json.

#[local] Set Warnings "-register-all".

Inductive Syntax :=
| SNull
| SBool (b : bool)
| SNumber (lit : string)
| SString (s : string)
| SArray (elems : list Syntax)
| SObject (fields : list (string * Syntax)).

Inductive Value :=
| Null
| Bool (b : bool)
| Number (lit : string)
| Float (f : strconv.float64)
| Str (s : string)
| Array (elems : list Value)
| Object (fields : list (string * Value)).

Record Decoder := { useNumber : bool }.

Definition NewDecoder : Decoder := {| useNumber := false |}.

(** [func (dec *Decoder) UseNumber()] *)
Definition UseNumber (dec : Decoder) : Decoder := {| useNumber := true |}.

(** [convertNumber]: without [UseNumber] the literal is parsed at once,
    and a literal that does not fit a float64 is an error. *)
Definition convertNumber (d : Decoder) (lit : string) : option Value :=
  if useNumber d then Some (Number lit)
  else match strconv.ParseFloat lit with
       | Some f => Some (Float f)
       | None => None
       end.

(** A Go map keeps one value for a key: the last one stored. *)
Fixpoint put_field (k : string) (v : Value) (l : list (string * Value))
  : list (string * Value) :=
  match l with
  | [] => [(k, v)]
  | kv :: l' =>
      if String.eqb (fst kv) k then (k, v) :: l' else kv :: put_field k v l'
  end.

Definition as_map (l : list (string * Value)) : list (string * Value) :=
  fold_left (fun acc kv => put_field (fst kv) (snd kv) acc) l [].

(** The value stored in an [interface{}]; [None] is an error. *)
Fixpoint valueInterface (d : Decoder) (x : Syntax) : option Value :=
  match x with
  | SNull => Some Null
  | SBool b => Some (Bool b)
  | SNumber lit => convertNumber d lit
  | SString s => Some (Str s)
  | SArray elems =>
      option_map Array
        ((fix values (l : list Syntax) : option (list Value) :=
            match l with
            | [] => Some []
            | x :: l' =>
                match valueInterface d x, values l' with
                | Some v, Some vs => Some (v :: vs)
                | _, _ => None
                end
            end) elems)
  | SObject fields =>
      option_map (fun l => Object (as_map l))
        ((fix values (l : list (string * Syntax))
            : option (list (string * Value)) :=
            match l with
            | [] => Some []
            | kx :: l' =>
                match valueInterface d (snd kx), values l' with
                | Some v, Some vs => Some ((fst kx, v) :: vs)
                | _, _ => None
                end
            end) fields)
  end.

Definition store_field (d : Decoder) (acc : option (gmap string Value))
  (kx : string * Syntax) : option (gmap string Value) :=
  match acc, valueInterface d (snd kx) with
  | Some m, Some v => Some (<[fst kx := v]> m)
  | _, _ => None
  end.

(** [Decode] into an empty [map[string]interface{}]: an object fills the
    map, [null] leaves no entry, any other value is an error. *)
Definition Decode (d : Decoder) (x : Syntax)
  : option (gmap string Value) :=
  match x with
  | SNull => Some ∅
  | SObject fields => fold_left (store_field d) fields (Some ∅)
  | _ => None
  end.

End json.

(** ** Package [fmt]: [Sprintf "%v"] *)

Module fmt.

Fixpoint join (sep : string) (l : list string) : string :=
  match l with
  | [] => ""
  | [x] => x
  | x :: l' => x +:+ sep +:+ join sep l'
  end.

(** Maps are printed in the order of their keys. *)
Fixpoint insert_by_key (kv : string * string) (l : list (string * string))
  : list (string * string) :=
  match l with
  | [] => [kv]
  | kv' :: l' =>
      match String.compare (fst kv) (fst kv') with
      | Gt => kv' :: insert_by_key kv l'
      | _ => kv :: l
      end
  end.

Definition sort_by_key (l : list (string * string)) : list (string * string) :=
  fold_right insert_by_key [] l.

(** [Sprintf "%v" v]: a [json.Number] prints through its [String]
    method, the text of the literal; a float64 prints in the shortest
    [%g] form, [fmtFloat], which is taken as given. *)
Fixpoint Sprintf_v (fmtFloat : strconv.float64 -> string) (v : json.Value)
  : string :=
  match v with
  | json.Null => "<nil>"
  | json.Bool b => if b then "true" else "false"
  | json.Number lit => lit
  | json.Float f => fmtFloat f
  | json.Str s => s
  | json.Array elems =>
      "[" +:+ join " " (map (Sprintf_v fmtFloat) elems) +:+ "]"
  | json.Object fields =>
      "map["
      +:+ join " "
            (map (fun kv => fst kv +:+ ":" +:+ snd kv)
               (sort_by_key
                  (map (fun kv => (fst kv, Sprintf_v fmtFloat (snd kv)))
                     fields)))
      +:+ "]"
  end.

End fmt.

(** The two library functions that are taken as given: the scanner of
    [encoding/json], which reads the first value of a body or fails, and
    the shortest [%g] form of a float64. *)
Record Runtime := {
  Scan : list ascii -> option json.Syntax;
  fmtFloat : strconv.float64 -> string;
}.

(** ** Package [net/http]: requests, responses and [Client.Do] *)

Inductive error :=
| ErrUseLastResponse            (* the sentinel of [net/http] *)
| ErrInvalidMethod
| ErrParseURL
| ErrParseLocation (loc : string)
| ErrRedirect (e : string)      (* a refusal of a [CheckRedirect] policy *)
| ErrTransport (e : string)     (* dial, timeout, protocol *)
| ErrDecode.                    (* [encoding/json] *)

Module http.

Definition Header := gmap string (list string).

Record Request := {
  Method : string;
  ReqURL : string;
  ReqHeader : Header;
}.

Record Response := {
  StatusCode : Z;
  RespHeader : Header;
  Body : list ascii;
}.

(** What lies outside the program: the network behind the transport,
    which may answer by the requests it has seen, and the steps of
    [url.Parse] that follow its check for control characters, taken as
    given: whether a text parses, and what a reference resolves to. *)
Record World := {
  RoundTrip : list Request -> Request -> Response + error;
  parse_tail : string -> bool;
  resolve_tail : string -> string -> option string;
}.

(** [isTokenRune] on a byte. *)
Definition is_token (c : ascii) : bool :=
  is_alnum c || one_of "!#$%&'*+-.^_`|~" c.

Definition validMethod (method : string) : bool :=
  negb (is_empty method) && string_forallb is_token method.

Fixpoint canonical_from (upper : bool) (s : string) : string :=
  match s with
  | EmptyString => ""
  | String c s' =>
      let c' := if upper && is_lower c then byte_of_Z (byte_val c - 32)
                else if negb upper && is_upper c then byte_of_Z (byte_val c + 32)
                else c in
      String c' (canonical_from (Ascii.eqb c' "-") s')
  end.

(** [textproto.CanonicalMIMEHeaderKey]: a key with a byte that is not a
    token byte is left as it is. *)
Definition CanonicalMIMEHeaderKey (key : string) : string :=
  if string_forallb is_token key then canonical_from true key else key.

Definition Header_Get (h : Header) (key : string) : string :=
  match h !! CanonicalMIMEHeaderKey key with
  | Some (v :: _) => v
  | _ => ""
  end.

Definition Header_Add (h : Header) (key value : string) : Header :=
  let k := CanonicalMIMEHeaderKey key in
  <[k := default [] (h !! k) ++ [value]]> h.

Definition add_header (r : Request) (key value : string) : Request :=
  {| Method := Method r; ReqURL := ReqURL r;
     ReqHeader := Header_Add (ReqHeader r) key value |}.

Definition is_CTL (c : ascii) : bool :=
  (byte_val c <? 32) || (byte_val c =? 127).

Fixpoint cut_fragment (s : string) : string :=
  match s with
  | EmptyString => ""
  | String c s' => if Ascii.eqb c "#" then "" else String c (cut_fragment s')
  end.

(** [url.Parse]: the text before the fragment is refused when it holds an
    ASCII control character; the rest of the parse is the world's. *)
Definition url_Parse (w : World) (rawURL : string) : bool :=
  if string_existsb is_CTL (cut_fragment rawURL) then false
  else parse_tail w rawURL.

(** [URL.Parse] on a receiver: parse the reference, then resolve it against the
    receiver. *)
Definition URL_Parse (w : World) (base ref : string) : option string :=
  if string_existsb is_CTL (cut_fragment ref) then None
  else resolve_tail w base ref.

(** [http.NewRequest method url nil] *)
Definition NewRequest (w : World) (method url : string) : Request + error :=
  if negb (validMethod method) then inr ErrInvalidMethod
  else if negb (url_Parse w url) then inr ErrParseURL
  else inl {| Method := method; ReqURL := url; ReqHeader := ∅ |}.

(** The timeouts of the transport, in nanoseconds. *)
Record Transport := {
  DialTimeout : Z;
  KeepAlive : Z;
  TLSHandshakeTimeout : Z;
  ExpectContinueTimeout : Z;
  ResponseHeaderTimeout : Z;
}.

Record Client := {
  ClientTransport : Transport;
  CheckRedirect : option (Request -> list Request -> option error);
}.

Definition defaultCheckRedirect (req : Request) (via : list Request)
  : option error :=
  if (10 <=? length via)%nat then Some (ErrRedirect "stopped after 10 redirects")
  else None.

Definition checkRedirect (c : Client) (req : Request) (via : list Request)
  : option error :=
  match CheckRedirect c with
  | Some fn => fn req via
  | None => defaultCheckRedirect req via
  end.

(** [redirectBehavior]: the method of the next request and whether the
    response asks for one.  The requests of this program carry no body, so
    a 307 or 308 can be replayed. *)
Definition redirectBehavior (reqMethod : string) (resp : Response)
  : string * bool :=
  let code := StatusCode resp in
  if (code =? 301) || (code =? 302) || (code =? 303) then
    (if String.eqb reqMethod "GET" || String.eqb reqMethod "HEAD"
     then reqMethod else "GET", true)
  else if (code =? 307) || (code =? 308) then (reqMethod, true)
  else ("", false).

(** What [Do] returns: a response, an error, or both, and here also the
    requests that were sent, in order. *)
Record outcome := {
  response : option Response;
  err : option error;
  sent : list Request;
}.

(** The loop of [Client.do].  [reqs] are the requests sent so far,
    [prior] is the response to the last of them together with the method
    that [redirectBehavior] chose, [None] before the first request.  The
    next hop is built before [CheckRedirect] is asked: a response without
    [Location] is returned, a [Location] that does not parse is an error.
    The hop takes the headers of the first request; the cookie jar, the
    [Referer] header and the headers dropped on a change of domain are
    left out.  [fuel] bounds the number of hops. *)
Fixpoint do_loop (fuel : nat) (w : World) (c : Client) (reqs : list Request)
  (req : Request) (prior : option (Response * string)) : option outcome :=
  match fuel with
  | O => None
  | S fuel' =>
      let send (req : Request) :=
        match RoundTrip w reqs req with
        | inr e =>
            Some {| response := None; err := Some e; sent := reqs ++ [req] |}
        | inl resp =>
            let '(redirectMethod, shouldRedirect) :=
              redirectBehavior (Method req) resp in
            if negb shouldRedirect
            then Some {| response := Some resp; err := None;
                         sent := reqs ++ [req] |}
            else do_loop fuel' w c (reqs ++ [req]) req
                   (Some (resp, redirectMethod))
        end in
      match prior with
      | None => send req
      | Some (resp, redirectMethod) =>
          let loc := Header_Get (RespHeader resp) "Location" in
          if is_empty loc
          then Some {| response := Some resp; err := None; sent := reqs |}
          else
            match URL_Parse w (ReqURL req) loc with
            | None =>
                Some {| response := None; err := Some (ErrParseLocation loc);
                        sent := reqs |}
            | Some u =>
                let ireq := default req (head reqs) in
                let req := {| Method := redirectMethod; ReqURL := u;
                              ReqHeader := ReqHeader ireq |} in
                match checkRedirect c req reqs with
                | Some ErrUseLastResponse =>
                    Some {| response := Some resp; err := None; sent := reqs |}
                | Some e =>
                    Some {| response := Some resp; err := Some e; sent := reqs |}
                | None => send req
                end
            end
      end
  end.

Definition Do (fuel : nat) (w : World) (c : Client) (req : Request)
  : option outcome :=
  do_loop fuel w c [] req None.

End http.

(** ** [main.go]: the options *)

(** [var apiKeyRegexp =
     regexp.MustCompile(`setWebserverConfig\(.*\{.*\bapiKey\s*=\s*"(.+?)"`)] *)
Definition apiKeyRegexp : regexp.Regexp :=
  [ regexp.Lit (list_ascii_of_string "setWebserverConfig(");
    regexp.Star regexp.any_char_not_nl;
    regexp.Lit (list_ascii_of_string "{");
    regexp.Star regexp.any_char_not_nl;
    regexp.WordBoundary;
    regexp.Lit (list_ascii_of_string "apiKey");
    regexp.Star regexp.perl_space;
    regexp.Lit (list_ascii_of_string "=");
    regexp.Star regexp.perl_space;
    regexp.Lit [dquote];
    regexp.LazyPlusGroup regexp.any_char_not_nl;
    regexp.Lit [dquote] ].

(** The file system as [os.ReadFile] sees it: the content of a path, or
    [None] when the read fails. *)
Definition FileSystem := string -> option (list ascii).

Definition conf_path : string := "/etc/dnsdist/dnsdist.conf".

Module Opt.

(** [type Opt struct] *)
Record t := {
  Version : bool;
  Prefix : string;
  Port : string;
  Host : string;
  Timeout : Z;   (* [time.Duration], in nanoseconds *)
  APIKey : string;
}.

(** [func (o *Opt) URL() string] *)
Definition URL (o : t) : string :=
  url.URL_String
    {| url.Scheme := "http";
       url.Host := net.JoinHostPort (Host o) (Port o);
       url.Path := "/jsonstat";
       url.RawQuery := "command=stats" |}.

(** [func (o *Opt) GetAPIKey() string] *)
Definition GetAPIKey (fs : FileSystem) (o : t) : string :=
  if negb (is_empty (APIKey o)) then APIKey o
  else
    match fs conf_path with
    | None => ""
    | Some buf =>
        match regexp.FindAllSubmatch apiKeyRegexp buf with
        | [] => ""
        | m :: _ => string_of_list_ascii (regexp.group1 m)
        end
    end.

End Opt.

(** The defaults of the flag declarations. *)
Definition default_Opt : Opt.t :=
  {| Opt.Version := false; Opt.Prefix := "dnsdist"; Opt.Port := "8083";
     Opt.Host := "127.0.0.1"; Opt.Timeout := 30 * 1000000000;
     Opt.APIKey := "" |}.

(** ** [main.go]: the plugin *)

Definition second : Z := 1000000000.

Module Plugin.

(** [type Plugin struct] *)
Record t := {
  Prefix : string;
  URL : string;
  Timeout : Z;
  APIKey : string;
}.

Definition set_Prefix (p : t) (s : string) : t :=
  {| Prefix := s; URL := URL p; Timeout := Timeout p; APIKey := APIKey p |}.

(** [func (p *Plugin) httpClient() *http.Client] *)
Definition httpClient (p : t) : http.Client :=
  {| http.ClientTransport :=
       {| http.DialTimeout := Timeout p;
          http.KeepAlive := Timeout p;
          http.TLSHandshakeTimeout := Timeout p;
          http.ExpectContinueTimeout := 1 * second;
          http.ResponseHeaderTimeout := Timeout p |};
     http.CheckRedirect := Some (fun _ _ => Some ErrUseLastResponse) |}.

(** [func (p *Plugin) MetricKeyPrefix() string]: the receiver is a
    pointer and the method may write its [Prefix] field, so the embedding
    returns the value together with the plugin after the call. *)
Definition MetricKeyPrefix (p : t) : string * t :=
  let p := if is_empty (Prefix p) then set_Prefix p "dnsdist" else p in
  (Prefix p, p).

(** [func (p *Plugin) GraphDefinition() map[string]mp.Graphs]; a field
    that a literal of the source leaves out has its zero value. *)
Definition GraphDefinition (u : UnicodeTables) (p : t)
  : gmap string mp.Graphs :=
  let labelPrefix := strings.Title u (Prefix p) in
  list_to_map [
    ("acl-drop",
     {| mp.Label := labelPrefix +:+ ": Dropped packets becaused of the ACL";
        mp.Unit := "integer";
        mp.Metrics := [
          {| mp.Name := "acl-drops"; mp.MLabel := "Dropped";
             mp.Diff := true; mp.Stacked := false |} ] |});
    ("cache",
     {| mp.Label := labelPrefix +:+ ": Packet Cache";
        mp.Unit := "integer";
        mp.Metrics := [
          {| mp.Name := "cache-hits"; mp.MLabel := "Hits";
             mp.Diff := true; mp.Stacked := true |};
          {| mp.Name := "cache-misses"; mp.MLabel := "Misses";
             mp.Diff := true; mp.Stacked := true |} ] |});
    ("downstream-errors",
     {| mp.Label := labelPrefix +:+ ": Backend errors";
        mp.Unit := "integer";
        mp.Metrics := [
          {| mp.Name := "downstream-send-errors"; mp.MLabel := "Send error";
             mp.Diff := true; mp.Stacked := false |};
          {| mp.Name := "downstream-timeouts"; mp.MLabel := "Timeouts";
             mp.Diff := true; mp.Stacked := false |} ] |});
    ("latency",
     {| mp.Label := labelPrefix +:+ ": Latency (microseconds)";
        mp.Unit := "integer";
        mp.Metrics := [
          {| mp.Name := "latency-avg1000000"; mp.MLabel := "Latency1000000";
             mp.Diff := false; mp.Stacked := false |} ] |});
    ("queries",
     {| mp.Label := labelPrefix +:+ ": Queries";
        mp.Unit := "integer";
        mp.Metrics := [
          {| mp.Name := "queries"; mp.MLabel := "Queries";
             mp.Diff := true; mp.Stacked := false |};
          {| mp.Name := "rdqueries"; mp.MLabel := "Query widh rd bit";
             mp.Diff := true; mp.Stacked := false |} ] |});
    ("responses",
     {| mp.Label := labelPrefix +:+ ": Response";
        mp.Unit := "integer";
        mp.Metrics := [
          {| mp.Name := "responses"; mp.MLabel := "Backend responses";
             mp.Diff := true; mp.Stacked := false |};
          {| mp.Name := "self-answered"; mp.MLabel := "Self answered";
             mp.Diff := true; mp.Stacked := false |};
          {| mp.Name := "servfail-responses"; mp.MLabel := "Backend servfail";
             mp.Diff := true; mp.Stacked := false |} ] |});
    ("rule",
     {| mp.Label := labelPrefix +:+ ": Returned because of rules";
        mp.Unit := "integer";
        mp.Metrics := [
          {| mp.Name := "rule-drop"; mp.MLabel := "Drop";
             mp.Diff := true; mp.Stacked := true |};
          {| mp.Name := "rule-nxdomain"; mp.MLabel := "Nxdomain";
             mp.Diff := true; mp.Stacked := true |};
          {| mp.Name := "rule-refused"; mp.MLabel := "Refused";
             mp.Diff := true; mp.Stacked := true |};
          {| mp.Name := "rule-servfail"; mp.MLabel := "Servfail";
             mp.Diff := true; mp.Stacked := true |};
          {| mp.Name := "rule-truncated"; mp.MLabel := "Truncated";
             mp.Diff := true; mp.Stacked := true |} ] |});
    ("fd",
     {| mp.Label := labelPrefix +:+ ": FD usage";
        mp.Unit := "integer";
        mp.Metrics := [
          {| mp.Name := "fd-usage"; mp.MLabel := "usage";
             mp.Diff := false; mp.Stacked := false |} ] |})
  ].

(** The body of the loop [for k, b := range t] of [FetchMetrics]: a field
    whose text parses is stored, another is skipped. *)
Definition coerce_step (rt : Runtime) (k : string) (b : json.Value)
  (result : gmap string strconv.float64) : gmap string strconv.float64 :=
  match strconv.ParseFloat (fmt.Sprintf_v (fmtFloat rt) b) with
  | None => result
  | Some f => <[k := f]> result
  end.

(** The loop: it visits every entry of the map once, in no fixed order. *)
Definition coerceFields (rt : Runtime) (t : gmap string json.Value)
  : gmap string strconv.float64 :=
  map_fold (coerce_step rt) ∅ t.

(** The request that [FetchMetrics] builds. *)
Definition buildRequest (w : http.World) (p : t) : http.Request + error :=
  match http.NewRequest w "GET" (URL p) with
  | inr e => inr e
  | inl req =>
      inl (if negb (is_empty (APIKey p))
           then http.add_header req "X-API-Key" (APIKey p)
           else req)
  end.

(** [func (p *Plugin) FetchMetrics() (map[string]float64, error)];
    [None] when [fuel] hops do not finish the request.  [Do] returns a
    response or an error, so the case of neither is never met. *)
Definition FetchMetrics (fuel : nat) (w : http.World) (rt : Runtime) (p : t)
  : option (gmap string strconv.float64 + error) :=
  match buildRequest w p with
  | inr e => Some (inr e)
  | inl req =>
      match http.Do fuel w (httpClient p) req with
      | None => None
      | Some out =>
          match http.err out, http.response out with
          | Some e, _ => Some (inr e)
          | None, None => Some (inr (ErrTransport "no response"))
          | None, Some res =>
              let decoder := json.UseNumber json.NewDecoder in
              match Scan rt (http.Body res) ≫= json.Decode decoder with
              | None => Some (inr ErrDecode)
              | Some t => Some (inl (coerceFields rt t))
              end
          end
      end
  end.

End Plugin.

(** ** [main.go]: [main]

    [flags.Parse] is taken by its result: the options it filled in, and
    its error if it has one.  [main] ends the process with a status and
    texts on the two output streams, or runs the plugin it has built. *)




(** The build: [os.Args[0]], the version set by the Makefile, and the
    compiler and version of the Go runtime. *)
Record Build := {
  Args0 : string;
  version : string;
  Compiler : string;
  GoVersion : string;
}.


(** ** Definitions used to state the properties *)

(** A string that [url.URL.String] writes into the host part as it is:
    none of its bytes is percent-encoded there. *)
Definition host_safe (s : string) : bool :=
  string_forallb (fun c => negb (url.shouldEscape c url.encodeHost)) s.

Definition has_colon (s : string) : bool := string_existsb (Ascii.eqb ":") s.

(** The form of the URL in the specification, with the texts written in
    the place of the host and of the port. *)
Definition url_template (host port : string) : string :=
  "http://" +:+ host +:+ ":" +:+ port +:+ "/jsonstat?command=stats".

Definition with_Host (o : Opt.t) (host : string) : Opt.t :=
  {| Opt.Version := Opt.Version o; Opt.Prefix := Opt.Prefix o;
     Opt.Port := Opt.Port o; Opt.Host := host; Opt.Timeout := Opt.Timeout o;
     Opt.APIKey := Opt.APIKey o |}.

Definition new_Plugin (prefix : string) : Plugin.t :=
  {| Plugin.Prefix := prefix; Plugin.URL := Opt.URL default_Opt;
     Plugin.Timeout := Opt.Timeout default_Opt; Plugin.APIKey := "" |}.

(** The [n+1]-th of successive calls of [Plugin.MetricKeyPrefix] on a plugin. *)
Fixpoint nth_MetricKeyPrefix (n : nat) (p : Plugin.t) : string * Plugin.t :=
  match n with
  | O => Plugin.MetricKeyPrefix p
  | S n' => nth_MetricKeyPrefix n' (snd (Plugin.MetricKeyPrefix p))
  end.

(** The catalog table of the specification, row by row: graph-key, then
    for each metric its name, stacked flag and diff flag. *)
Definition catalog_table : list (string * list (string * bool * bool)) :=
  [ ("acl-drop", [("acl-drops", false, true)]);
    ("cache", [("cache-hits", true, true); ("cache-misses", true, true)]);
    ("downstream-errors",
     [("downstream-send-errors", false, true);
      ("downstream-timeouts", false, true)]);
    ("latency", [("latency-avg1000000", false, false)]);
    ("queries", [("queries", false, true); ("rdqueries", false, true)]);
    ("responses",
     [("responses", false, true); ("self-answered", false, true);
      ("servfail-responses", false, true)]);
    ("rule",
     [("rule-drop", true, true); ("rule-nxdomain", true, true);
      ("rule-refused", true, true); ("rule-servfail", true, true);
      ("rule-truncated", true, true)]);
    ("fd", [("fd-usage", false, false)]) ].

(** The columns of a graph that the table lists. *)
Definition metric_rows (g : mp.Graphs) : list (string * bool * bool) :=
  map (fun m => (mp.Name m, mp.Stacked m, mp.Diff m)) (mp.Metrics g).

Definition find_metric (name : string) (g : mp.Graphs) : option mp.Metrics_t :=
  find (fun m => String.eqb (mp.Name m) name) (mp.Metrics g).

(** The metric [rdqueries] with a given label, not stacked, diff on. *)
Definition rdqueries_with (label : string) : mp.Metrics_t :=
  {| mp.Name := "rdqueries"; mp.MLabel := label; mp.Diff := true;
     mp.Stacked := false |}.

(** What it means for a pattern to match, apart from the order in which
    a matcher tries the alternatives: [matches re prev inp w g] holds when
    [re] matches the prefix [w] of the input [inp], the byte before being
    [prev], with [g] the text of the group. *)
Inductive matches
  : regexp.Regexp -> option ascii -> list ascii -> list ascii -> list ascii
    -> Prop :=
| M_end prev inp : matches [] prev inp [] []
| M_lit s re prev inp w g :
    matches re (regexp.last_of prev s) inp w g ->
    matches (regexp.Lit s :: re) prev (s ++ inp) (s ++ w) g
| M_star cls re prev a inp w g :
    Forall (fun c => cls c = true) a ->
    matches re (regexp.last_of prev a) inp w g ->
    matches (regexp.Star cls :: re) prev (a ++ inp) (a ++ w) g
| M_group cls re prev a inp w g :
    a <> [] ->
    Forall (fun c => cls c = true) a ->
    matches re (regexp.last_of prev a) inp w g ->
    matches (regexp.LazyPlusGroup cls :: re) prev (a ++ inp) (a ++ w) a
| M_boundary re prev inp w g :
    regexp.is_word prev <> regexp.is_word (head inp) ->
    matches re prev inp w g ->
    matches (regexp.WordBoundary :: re) prev inp w g.

(** [re] matches somewhere in [buf]. *)
Definition matches_in (re : regexp.Regexp) (buf : list ascii) : Prop :=
  exists pre w g post,
    buf = pre ++ w ++ post
    /\ matches re (regexp.last_of None pre) (w ++ post) w g.

(** The first match of [re] in [buf] is at offset [length pre], with text
    [w] and group [g]: the matcher succeeds there with that result, and
    the pattern matches at no offset before. *)
Definition first_match (re : regexp.Regexp) (buf pre w g : list ascii) : Prop :=
  exists post,
    buf = pre ++ w ++ post
    /\ regexp.match_here re (regexp.last_of None pre) (w ++ post)
       = Some (w, g, post)
    /\ matches re (regexp.last_of None pre) (w ++ post) w g
    /\ forall pre' post' w' g',
         buf = pre' ++ post' -> (length pre' < length pre)%nat ->
         ~ matches re (regexp.last_of None pre') post' w' g'.

(** The resolution of the API key as the specification words it. *)
Inductive resolves (fs : FileSystem) (o : Opt.t) : string -> Prop :=
| R_explicit :
    Opt.APIKey o <> "" -> resolves fs o (Opt.APIKey o)
| R_unreadable :
    Opt.APIKey o = "" -> fs conf_path = None -> resolves fs o ""
| R_no_match buf :
    Opt.APIKey o = "" -> fs conf_path = Some buf ->
    ~ matches_in apiKeyRegexp buf -> resolves fs o ""
| R_first buf pre w g :
    Opt.APIKey o = "" -> fs conf_path = Some buf ->
    first_match apiKeyRegexp buf pre w g ->
    resolves fs o (string_of_list_ascii g).

(** A file system with one file, the configuration of dnsdist. *)
Definition conf_only (content : list ascii) : FileSystem :=
  fun path => if String.eqb path conf_path then Some content else None.

Definition quoted (s : string) : string :=
  String dquote s +:+ String dquote "".

(** The configuration line of the specification. *)
Definition conf_example : list ascii :=
  list_ascii_of_string
    ("setWebserverConfig({..., apiKey = " +:+ quoted "secret123" +:+ ", ...})").

(** A statement whose assignment is spread over three lines. *)
Definition conf_three_lines : list ascii :=
  list_ascii_of_string
    ("setWebserverConfig({apiKey" +:+ String newline "="
     +:+ String newline (quoted "k") +:+ "})").

Definition lit_open : list ascii := list_ascii_of_string "setWebserverConfig(".
Definition lit_brace : list ascii := list_ascii_of_string "{".
Definition lit_apiKey : list ascii := list_ascii_of_string "apiKey".
Definition lit_eq : list ascii := list_ascii_of_string "=".

(** The shape of a match of [apiKeyRegexp]: no line break between the
    opening and [apiKey] nor in the value; white space around [=]. *)
Definition statement_shape (w g : list ascii) : Prop :=
  exists a b w1 w2,
    w = lit_open ++ a ++ lit_brace ++ b ++ lit_apiKey ++ w1 ++ lit_eq ++ w2
        ++ [dquote] ++ g ++ [dquote]
    /\ (newline ∉ a) /\ (newline ∉ b) /\ (newline ∉ g) /\ g <> []
    /\ Forall (fun c => regexp.perl_space c = true) w1
    /\ Forall (fun c => regexp.perl_space c = true) w2.

(** A statement opened on one line and continued on the next. *)
Definition conf_broken_line : list ascii :=
  list_ascii_of_string
    ("setWebserverConfig({" +:+ String newline ("  apiKey = " +:+ quoted "a")
     +:+ " })").

(** [apiKey_on_line inp]: the word [apiKey] occurs in [inp] before any
    line break. *)
Fixpoint apiKey_on_line (inp : list ascii) : bool :=
  match inp with
  | [] => false
  | x :: xs =>
      match regexp.strip_prefix lit_apiKey inp with
      | Some _ => true
      | None => if Ascii.eqb x newline then false else apiKey_on_line xs
      end
  end.

(** [opening_then_apiKey buf]: somewhere in [buf] the text
    [setWebserverConfig(] is followed, on the same line, by [apiKey]. *)
Fixpoint opening_then_apiKey (buf : list ascii) : bool :=
  match buf with
  | [] => false
  | _ :: xs =>
      match regexp.strip_prefix lit_open buf with
      | Some rest => apiKey_on_line rest
      | None => false
      end
      || opening_then_apiKey xs
  end.

Definition has_line_break (w : list ascii) : bool :=
  existsb (Ascii.eqb newline) w.

(** The values that never parse as a number: [nil], booleans, arrays and
    objects. *)
Definition not_numeric_kind (v : json.Value) : bool :=
  match v with
  | json.Null | json.Bool _ | json.Array _ | json.Object _ => true
  | json.Number _ | json.Float _ | json.Str _ => false
  end.

(** The bytes a text that [ParseFloat] accepts can begin with. *)
Definition can_start_number (c : ascii) : bool :=
  is_digit c || one_of "+-._iInN" c.

(** The body of the specification's example, as the scanner reads it. *)
Definition example_fields : list (string * json.Syntax) :=
  [ ("queries", json.SNumber "42");
    ("latency-avg1000000", json.SString "55.5");
    ("acl-drops", json.SBool true);
    ("nested", json.SObject [("a", json.SNumber "1")]) ].

Definition body_example : json.Syntax := json.SObject example_fields.

(** The decoder as [FetchMetrics] sets it up. *)
Definition decoder : json.Decoder := json.UseNumber json.NewDecoder.

(** The map that the decoder makes of the example. *)
Definition body_decoded : gmap string json.Value :=
  {[ "queries" := json.Number "42";
     "latency-avg1000000" := json.Str "55.5";
     "acl-drops" := json.Bool true;
     "nested" := json.Object [("a", json.Number "1")] ]}.

(** The value of field [k] of an object: that of its last occurrence. *)
Fixpoint field (fields : list (string * json.Syntax)) (k : string)
  : option json.Syntax :=
  match fields with
  | [] => None
  | kx :: fields' =>
      match field fields' k with
      | Some x => Some x
      | None => if String.eqb (fst kx) k then Some (snd kx) else None
      end
  end.

(** The float64 values 42 and 55.5: [5910974510923776 * 2^-47] and
    [7810930603720704 * 2^-47]. *)
Definition f64_42 : strconv.float64 := S754_finite false 5910974510923776 (-47).
Definition f64_55_5 : strconv.float64 := S754_finite false 7810930603720704 (-47).

(** [float64_is f num den]: [f] is a float64 in canonical form whose value
    is the fraction [num / den]. *)
Definition float64_is (f : strconv.float64) (num den : Z) : Prop :=
  valid_binary strconv.prec strconv.emax f = true /\
  match f with
  | S754_finite s m e =>
      let v := if s then Z.neg m else Z.pos m in
      if 0 <=? e then v * 2 ^ e * den = num else v * den = num * 2 ^ (- e)
  | S754_zero _ => num = 0
  | _ => False
  end.

(** Does the response ask the client for another request: a 301, 302,
    303, 307 or 308. *)
Definition asks_redirect (req : http.Request) (resp : http.Response) : bool :=
  snd (http.redirectBehavior (http.Method req) resp).

Definition Location (resp : http.Response) : string :=
  http.Header_Get (http.RespHeader resp) "Location".

(** The [Location] header of the response is absent, or parses as a
    reference against the Opt.URL of the request. *)
Definition location_ok (w : http.World) (req : http.Request)
  (resp : http.Response) : bool :=
  is_empty (Location resp)
  || match http.URL_Parse w (http.ReqURL req) (Location resp) with
     | Some _ => true
     | None => false
     end.

Definition returned_as_is (reqs : list http.Request) (resp : http.Response)
  : http.outcome :=
  {| http.response := Some resp; http.err := None; http.sent := reqs |}.

Definition location_error (reqs : list http.Request) (resp : http.Response)
  : http.outcome :=
  {| http.response := None;
     http.err := Some (ErrParseLocation (Location resp));
     http.sent := reqs |}.

(** A server that answers every request with the same response; there
    the rest of [url.Parse] accepts every text and a reference resolves to
    itself. *)
Definition fixed_server (resp : http.Response) : http.World :=
  {| http.RoundTrip := fun _ _ => inl resp;
     http.parse_tail := fun _ => true;
     http.resolve_tail := fun _ ref => Some ref |}.

(** A runtime whose scanner reads every body as the empty object. *)
Definition empty_body_runtime : Runtime :=
  {| Scan := fun _ => Some (json.SObject []); fmtFloat := fun _ => "" |}.

Definition redirect_to (code : Z) (loc : string) : http.Response :=
  {| http.StatusCode := code;
     http.RespHeader := {[ "Location" := [loc] ]};
     http.Body := [] |}.

(** A [Location] with a control character: a horizontal tab, which a
    header value may hold. *)
Definition bad_location : string := "/stats" +:+ String "009"%char "x".

Definition stats_request : http.Request :=
  {| http.Method := "GET"; http.ReqURL := Opt.URL default_Opt;
     http.ReqHeader := ∅ |}.

(** The bytes that [url.URL.String] can write in the host part: those
    it leaves as they are, and the percent sign of an escape.  None is a
    slash, a question mark, a number sign, an at sign, a space, a control
    character or a byte above 127. *)
Definition authority_byte (c : ascii) : bool :=
  is_alnum c || one_of "-_.~!$&'()*+,;=:[]<>%" c || Ascii.eqb c dquote.

(** The host part of the URL as it is written. *)
Definition authority (o : Opt.t) : string :=
  url.escape (net.JoinHostPort (Opt.Host o) (Opt.Port o)) url.encodeHost.

(** An assignment with an empty value, followed by another quoted text
    on the same line. *)
Definition conf_empty_value : list ascii :=
  list_ascii_of_string
    ("setWebserverConfig({apiKey=" +:+ quoted "" +:+ ", password="
     +:+ quoted "x" +:+ "})").

(** What [FetchMetrics] makes of a body: the coerced fields of the
    object it decodes to, or the error of the decoder. *)
Definition metrics_of_body (rt : Runtime) (body : list ascii)
  : gmap string strconv.float64 + error :=
  match Scan rt body ≫= json.Decode decoder with
  | Some t => inl (Plugin.coerceFields rt t)
  | None => inr ErrDecode
  end.

Definition transport_failed (reqs : list http.Request) (e : error)
  : http.outcome :=
  {| http.response := None; http.err := Some e; http.sent := reqs |}.

(** A response with a status, no header and a body. *)
Definition plain_response (code : Z) (body : list ascii) : http.Response :=
  {| http.StatusCode := code; http.RespHeader := ∅; http.Body := body |}.

(** A runtime whose scanner reads every body as the example. *)
Definition example_runtime : Runtime :=
  {| Scan := fun _ => Some body_example; fmtFloat := fun _ => "" |}.

Definition with_APIKey (p : Plugin.t) (key : string) : Plugin.t :=
  {| Plugin.Prefix := Plugin.Prefix p; Plugin.URL := Plugin.URL p;
     Plugin.Timeout := Plugin.Timeout p; Plugin.APIKey := key |}.

(** The header of the request: the key under its canonical name, or
    nothing for an empty key. *)
Definition key_header (key : string) : http.Header :=
  if is_empty key then ∅ else {[ "X-Api-Key" := [key] ]}.

(** The text that the loop parses for a field of the body: the literal
    of a number, the content of a string; no other value has one. *)
Definition scalar_text (x : json.Syntax) : option string :=
  match x with
  | json.SNumber lit => Some lit
  | json.SString s => Some s
  | _ => None
  end.

Definition is_object_or_null (x : json.Syntax) : bool :=
  match x with
  | json.SNull | json.SObject _ => true
  | _ => false
  end.

(** The loop of [FetchMetrics] run over the entries in a given order. *)
Definition coerce_in_order (rt : Runtime) (entries : list (string * json.Value))
  : gmap string strconv.float64 :=
  fold_left (fun result kb => Plugin.coerce_step rt (fst kb) (snd kb) result)
    entries ∅.

(** An object with a field that occurs twice and a number out of range. *)
Definition fields_twice : list (string * json.Syntax) :=
  [ ("queries", json.SNumber "1"); ("big", json.SNumber "1e999");
    ("queries", json.SNumber "42") ].

(** The names of all metrics of a catalog. *)
Definition metric_names (m : gmap string mp.Graphs) : list string :=
  map_to_list m ≫= (fun kg => mp.Name <$> mp.Metrics (snd kg)).

(** What of a graph does not belong to its label. *)
Definition unit_and_metrics (g : mp.Graphs) : string * list mp.Metrics_t :=
  (mp.Unit g, mp.Metrics g).

(** A name that the plugin host looks up as it is: not empty, and without
    the wildcards [*] and [#] or a dot. *)
Definition plain_name (s : string) : bool :=
  negb (is_empty s) && negb (string_existsb (one_of "*#.") s).

Definition example_build : Build :=
  {| Args0 := "mackerel-plugin-dnsdist"; version := "0.0.4";
     Compiler := "gc"; GoVersion := "go1.21" |}.

Definition with_Version (o : Opt.t) (v : bool) : Opt.t :=
  {| Opt.Version := v; Opt.Prefix := Opt.Prefix o; Opt.Port := Opt.Port o;
     Opt.Host := Opt.Host o; Opt.Timeout := Opt.Timeout o;
     Opt.APIKey := Opt.APIKey o |}.


(** The end of the pattern, from the word boundary on: one assignment
    [apiKey = "..."]. *)
Definition assignment_re : regexp.Regexp :=
  [ regexp.WordBoundary;
    regexp.Lit (list_ascii_of_string "apiKey");
    regexp.Star regexp.perl_space;
    regexp.Lit (list_ascii_of_string "=");
    regexp.Star regexp.perl_space;
    regexp.Lit [dquote];
    regexp.LazyPlusGroup regexp.any_char_not_nl;
    regexp.Lit [dquote] ].

(** Two statements on one line. *)
Definition conf_two_on_line : list ascii :=
  list_ascii_of_string
    ("setWebserverConfig({apiKey=" +:+ quoted "a"
     +:+ "}) setWebserverConfig({apiKey=" +:+ quoted "b" +:+ "})").

(** Title case on ASCII bytes: a lower-case letter that begins a word is
    put in upper case; [sep] tells whether the byte before ends a word. *)
Definition is_ascii (c : ascii) : bool := byte_val c <? 128.

Definition upper (c : ascii) : ascii := byte_of_Z (byte_val c - 32).

Fixpoint title_bytes (sep : bool) (s : string) : string :=
  match s with
  | EmptyString => ""
  | String c s' =>
      String (if sep && is_lower c then upper c else c)
        (title_bytes (negb (regexp.is_word_char c)) s')
  end.

Definition with_Prefix (prefix : string) : Plugin.t :=
  {| Plugin.Prefix := prefix; Plugin.URL := ""; Plugin.Timeout := 0;
     Plugin.APIKey := "" |}.

(** ** Strings *)

Lemma append_assoc (s1 s2 s3 : string) :
  (s1 +:+ s2) +:+ s3 = s1 +:+ (s2 +:+ s3).
Proof.
  induction s1 as [|c s1 IH]; [reflexivity|].
  change (String c ((s1 +:+ s2) +:+ s3) = String c (s1 +:+ (s2 +:+ s3))).
  now rewrite IH.
Qed.

Lemma append_nil_r (s : string) : s +:+ "" = s.
Proof.
  induction s as [|c s IH]; [reflexivity|].
  change (String c (s +:+ "") = String c s). now rewrite IH.
Qed.

Lemma append_cons (c : ascii) (s t : string) :
  String c s +:+ t = String c (s +:+ t).
Proof. reflexivity. Qed.

Lemma string_existsb_app (p : ascii -> bool) (s t : string) :
  string_existsb p (s +:+ t) = string_existsb p s || string_existsb p t.
Proof.
  induction s as [|c s IH]; [reflexivity|].
  rewrite append_cons. simpl. rewrite IH. now rewrite orb_assoc.
Qed.

(** ** [Opt.URL] *)

Lemma escape_app (s t : string) (mode : url.encoding) :
  url.escape (s +:+ t) mode = url.escape s mode +:+ url.escape t mode.
Proof.
  induction s as [|c s IH]; [reflexivity|].
  rewrite append_cons. simpl. rewrite IH. now rewrite append_assoc.
Qed.

Lemma escape_host_safe (s : string) :
  host_safe s = true -> url.escape s url.encodeHost = s.
Proof.
  induction s as [|c s IH]; [reflexivity|].
  unfold host_safe. simpl. intros H.
  apply andb_prop in H as [Hc Hs].
  unfold url.escape_byte.
  apply negb_true_iff in Hc. rewrite Hc.
  rewrite append_cons. change ("" +:+ url.escape s url.encodeHost)
    with (url.escape s url.encodeHost).
  now rewrite (IH Hs).
Qed.

Lemma JoinHostPort_escape (host port : string) :
  host_safe host = true -> host_safe port = true ->
  url.escape (net.JoinHostPort host port) url.encodeHost
  = net.JoinHostPort host port.
Proof.
  intros Hh Hp. unfold net.JoinHostPort.
  destruct (string_existsb (Ascii.eqb ":") host);
    rewrite !escape_app, !(escape_host_safe host Hh), !(escape_host_safe port Hp);
    reflexivity.
Qed.

Lemma JoinHostPort_not_empty (host port : string) :
  is_empty (net.JoinHostPort host port) = false.
Proof.
  unfold net.JoinHostPort.
  destruct (string_existsb (Ascii.eqb ":") host); [reflexivity|].
  destruct host; reflexivity.
Qed.

(** C3, as amended.  For a host and a port that need no percent-encoding,
    [Opt.URL] is [http://<host>:<port>/jsonstat?command=stats] when the
    host has no colon, and [http://[<host>]:<port>/jsonstat?command=stats]
    when it has one: a literal IPv6 address is put in square brackets. *)
Theorem URL_exact (o : Opt.t) :
  host_safe (Opt.Host o) = true -> host_safe (Opt.Port o) = true ->
  Opt.URL o = url_template
            (if has_colon (Opt.Host o) then "[" +:+ Opt.Host o +:+ "]" else Opt.Host o)
            (Opt.Port o).
Proof.
  intros Hh Hp. unfold url_template, Opt.URL, url.URL_String. simpl url.Scheme.
  simpl url.Host. simpl url.RawQuery.
  rewrite JoinHostPort_not_empty.
  rewrite (JoinHostPort_escape _ _ Hh Hp).
  change (url.EscapedPath _) with "/jsonstat".
  change (is_empty "http") with false.
  cbv iota beta. simpl negb. simpl orb. simpl andb. cbv iota.
  change (is_empty "command=stats") with false. cbv iota.
  unfold net.JoinHostPort, has_colon.
  destruct (string_existsb (Ascii.eqb ":") (Opt.Host o)).
  - rewrite !append_assoc. reflexivity.
  - rewrite !append_assoc. reflexivity.
Qed.

Lemma URL_exact_witness :
  Opt.URL default_Opt = "http://127.0.0.1:8083/jsonstat?command=stats".
Proof. apply (URL_exact default_Opt); vm_compute; reflexivity. Defined.

(** C3, as stated, fails on a literal IPv6 host: the host [::1] needs no
    escaping, and the URL is not the template with the host written
    verbatim. *)
Lemma URL_ipv6_not_verbatim :
  host_safe "::1" = true /\
  Opt.URL (with_Host default_Opt "::1") = "http://[::1]:8083/jsonstat?command=stats" /\
  Opt.URL (with_Host default_Opt "::1") <> url_template "::1" "8083".
Proof.
  split; [reflexivity|]. split; [vm_compute; reflexivity|].
  apply String.eqb_neq. vm_compute. reflexivity.
Qed.

(** ** [Plugin.MetricKeyPrefix] *)

Lemma MetricKeyPrefix_value (p : Plugin.t) :
  fst (Plugin.MetricKeyPrefix p)
  = if is_empty (Plugin.Prefix p) then "dnsdist" else Plugin.Prefix p.
Proof. unfold Plugin.MetricKeyPrefix. destruct p as [[|c s] ? ? ?]; reflexivity. Qed.

Lemma MetricKeyPrefix_stores (p : Plugin.t) :
  Plugin.Prefix (snd (Plugin.MetricKeyPrefix p)) = fst (Plugin.MetricKeyPrefix p).
Proof. reflexivity. Qed.

Lemma MetricKeyPrefix_not_empty (p : Plugin.t) :
  is_empty (fst (Plugin.MetricKeyPrefix p)) = false.
Proof. unfold Plugin.MetricKeyPrefix. destruct p as [[|c s] ? ? ?]; reflexivity. Qed.

Lemma MetricKeyPrefix_fixpoint (p : Plugin.t) :
  Plugin.MetricKeyPrefix (snd (Plugin.MetricKeyPrefix p)) = Plugin.MetricKeyPrefix p.
Proof.
  unfold Plugin.MetricKeyPrefix at 1.
  rewrite MetricKeyPrefix_stores, MetricKeyPrefix_not_empty. reflexivity.
Qed.

(** C10.  [Plugin.MetricKeyPrefix] never returns the empty string: it returns
    [dnsdist] for an empty stored prefix and the stored prefix otherwise;
    after a call the [Prefix] field holds the value returned, and every
    later call returns that value and leaves the plugin as it is. *)
Theorem MetricKeyPrefix_idempotent (p : Plugin.t) (n : nat) :
  fst (Plugin.MetricKeyPrefix p) <> ""
  /\ fst (Plugin.MetricKeyPrefix p)
     = (if is_empty (Plugin.Prefix p) then "dnsdist" else Plugin.Prefix p)
  /\ Plugin.Prefix (snd (Plugin.MetricKeyPrefix p)) = fst (Plugin.MetricKeyPrefix p)
  /\ nth_MetricKeyPrefix n (snd (Plugin.MetricKeyPrefix p)) = Plugin.MetricKeyPrefix p.
Proof.
  repeat split.
  - pose proof (MetricKeyPrefix_not_empty p) as H.
    intros E. rewrite E in H. discriminate.
  - apply MetricKeyPrefix_value.
  - induction n as [|n IH].
    + apply MetricKeyPrefix_fixpoint.
    + change (nth_MetricKeyPrefix n
                (snd (Plugin.MetricKeyPrefix (snd (Plugin.MetricKeyPrefix p))))
              = Plugin.MetricKeyPrefix p).
      rewrite MetricKeyPrefix_fixpoint. exact IH.
Qed.

(** ** [Plugin.GraphDefinition] *)

Lemma GraphDefinition_rows (u : UnicodeTables) (p : Plugin.t) :
  metric_rows <$> Plugin.GraphDefinition u p = list_to_map catalog_table.
Proof.
  unfold Plugin.GraphDefinition. rewrite <- list_to_map_fmap. reflexivity.
Qed.

Lemma GraphDefinition_dom (u : UnicodeTables) (p : Plugin.t) :
  dom (Plugin.GraphDefinition u p) = list_to_set (catalog_table.*1).
Proof. unfold Plugin.GraphDefinition. rewrite dom_list_to_map_L. reflexivity. Qed.

(** C4.  [Plugin.GraphDefinition] has exactly the eight graph-keys of the
    catalog table, and under every key the names, stacked flags and diff
    flags of its metrics, in order, are those of the table. *)
Theorem GraphDefinition_catalog (u : UnicodeTables) (p : Plugin.t) :
  dom (Plugin.GraphDefinition u p)
  = ({[ "acl-drop"; "cache"; "downstream-errors"; "latency"; "queries";
        "responses"; "rule"; "fd" ]} : gset string)
  /\ size (Plugin.GraphDefinition u p) = 8%nat
  /\ metric_rows <$> Plugin.GraphDefinition u p = list_to_map catalog_table.
Proof.
  split; [|split].
  - rewrite GraphDefinition_dom. vm_compute. reflexivity.
  - rewrite <- size_dom, GraphDefinition_dom. vm_compute. reflexivity.
  - apply GraphDefinition_rows.
Qed.

(** C6.  Every display label of the catalog is the title-cased prefix,
    a colon, and a text; for the prefix [foo] the label of the graph
    [cache] is [Foo: Packet Cache]. *)
Theorem GraphDefinition_labels (u : UnicodeTables) (p : Plugin.t) :
  map_Forall
    (fun _ g =>
       exists text,
         mp.Label g = strings.Title u (Plugin.Prefix p) +:+ ":" +:+ text)
    (Plugin.GraphDefinition u p)
  /\ mp.Label <$> (Plugin.GraphDefinition u (new_Plugin "foo") !! "cache")
     = Some ("Foo:" +:+ " Packet Cache").
Proof.
  split.
  - apply map_Forall_lookup. intros k g Hk.
    apply elem_of_list_to_map_2 in Hk.
    repeat (apply elem_of_cons in Hk as [Hk|Hk];
            [ injection Hk as _ ->; eexists; reflexivity | ]).
    apply elem_of_nil in Hk. contradiction.
  - vm_compute. reflexivity.
Qed.

(** C8, on the code: in the graph [queries] the metric [rdqueries] is not
    stacked and has diff enabled, and its label is spelled
    [Query widh rd bit], not [Query with rd bit]. *)
Theorem rdqueries_label (u : UnicodeTables) (p : Plugin.t) :
  (Plugin.GraphDefinition u p !! "queries") ≫= find_metric "rdqueries"
  = Some (rdqueries_with "Query widh rd bit")
  /\ (Plugin.GraphDefinition u p !! "queries") ≫= find_metric "rdqueries"
     <> Some (rdqueries_with "Query with rd bit").
Proof.
  assert (H : (Plugin.GraphDefinition u p !! "queries") ≫= find_metric "rdqueries"
              = Some (rdqueries_with "Query widh rd bit")).
  { vm_compute. reflexivity. }
  split; [exact H|]. rewrite H. intros E. inversion E.
Qed.

(** ** The matcher and the meaning of a pattern *)

Lemma strip_prefix_Some (lit inp rest : list ascii) :
  regexp.strip_prefix lit inp = Some rest -> inp = lit ++ rest.
Proof.
  revert inp. induction lit as [|c lit IH]; intros inp H; simpl in H.
  - now injection H as ->.
  - destruct inp as [|x inp]; [discriminate|].
    destruct (Ascii.eqb c x) eqn:E; [|discriminate].
    apply Ascii.eqb_eq in E as ->. now rewrite (IH _ H).
Qed.

Lemma strip_prefix_app (lit rest : list ascii) :
  regexp.strip_prefix lit (lit ++ rest) = Some rest.
Proof.
  induction lit as [|c lit IH]; [reflexivity|].
  simpl. now rewrite Ascii.eqb_refl.
Qed.

Lemma last_of_app (prev : option ascii) (a b : list ascii) :
  regexp.last_of prev (a ++ b) = regexp.last_of (regexp.last_of prev a) b.
Proof. unfold regexp.last_of. apply fold_left_app. Qed.

Lemma match_here_star_nil cls re prev :
  regexp.match_here (regexp.Star cls :: re) prev []
  = regexp.match_here re prev [].
Proof. reflexivity. Qed.

Lemma match_here_star_cons cls re prev x xs :
  regexp.match_here (regexp.Star cls :: re) prev (x :: xs)
  = if cls x then
      match regexp.match_here (regexp.Star cls :: re) (Some x) xs with
      | Some (w, g, r) => Some (x :: w, g, r)
      | None => regexp.match_here re prev (x :: xs)
      end
    else regexp.match_here re prev (x :: xs).
Proof. reflexivity. Qed.

Lemma match_here_group_nil cls re prev :
  regexp.match_here (regexp.LazyPlusGroup cls :: re) prev [] = None.
Proof. reflexivity. Qed.

Lemma match_here_group_cons cls re prev x xs :
  regexp.match_here (regexp.LazyPlusGroup cls :: re) prev (x :: xs)
  = if cls x then
      match regexp.match_here re (Some x) xs with
      | Some (w, _, r) => Some (x :: w, [x], r)
      | None =>
          match regexp.match_here (regexp.LazyPlusGroup cls :: re) (Some x) xs
          with
          | Some (w, g, r) => Some (x :: w, x :: g, r)
          | None => None
          end
      end
    else None.
Proof. reflexivity. Qed.

Lemma matches_star_nil cls re prev inp w g :
  matches re prev inp w g -> matches (regexp.Star cls :: re) prev inp w g.
Proof. intros H. apply (M_star cls re prev [] inp w g); [constructor|exact H]. Qed.

Lemma matches_star_cons cls re prev x inp w g :
  cls x = true ->
  matches (regexp.Star cls :: re) (Some x) inp w g ->
  matches (regexp.Star cls :: re) prev (x :: inp) (x :: w) g.
Proof.
  intros Hx H. inversion H; subst.
  match goal with
  | Hm : matches re _ ?inp' ?w' _, Ha : Forall _ ?a |- _ =>
      apply (M_star cls re prev (x :: a) inp' w' g);
      [now constructor|exact Hm]
  end.
Qed.

Lemma matches_group_one cls re prev x inp w g :
  cls x = true ->
  matches re (Some x) inp w g ->
  matches (regexp.LazyPlusGroup cls :: re) prev (x :: inp) (x :: w) [x].
Proof.
  intros Hx H.
  apply (M_group cls re prev [x] inp w g); [discriminate|now repeat constructor|exact H].
Qed.

Lemma matches_group_cons cls re prev x inp w g :
  cls x = true ->
  matches (regexp.LazyPlusGroup cls :: re) (Some x) inp w g ->
  matches (regexp.LazyPlusGroup cls :: re) prev (x :: inp) (x :: w) (x :: g).
Proof.
  intros Hx H. inversion H; subst.
  match goal with
  | Hm : matches re _ ?inp' ?w' ?g', Ha : Forall _ ?a |- _ =>
      apply (M_group cls re prev (x :: a) inp' w' g');
      [discriminate|now constructor|exact Hm]
  end.
Qed.

(** The matcher is sound: what it returns is a match, and the input is
    the text matched followed by the rest. *)
Lemma match_here_sound (re : regexp.Regexp) :
  forall prev inp w g r,
    regexp.match_here re prev inp = Some (w, g, r) ->
    matches re prev inp w g /\ inp = w ++ r.
Proof.
  induction re as [|nd re IH]; intros prev inp w g r H.
  - simpl in H. injection H as <- <- <-. split; [constructor|reflexivity].
  - destruct nd as [s|cls|cls|].
    + simpl in H.
      destruct (regexp.strip_prefix s inp) as [rest|] eqn:Hs; [|discriminate].
      destruct (regexp.match_here re (regexp.last_of prev s) rest)
        as [[[w' g'] r']|] eqn:Hm; [|discriminate].
      injection H as <- <- <-.
      apply strip_prefix_Some in Hs as ->.
      apply IH in Hm as [Hm ->].
      split; [now constructor|now rewrite app_assoc].
    + revert prev w g r H.
      induction inp as [|x xs IHinp]; intros prev w g r H.
      * rewrite match_here_star_nil in H. apply IH in H as [H E].
        split; [now apply matches_star_nil|exact E].
      * rewrite match_here_star_cons in H.
        destruct (cls x) eqn:Hx.
        -- destruct (regexp.match_here (regexp.Star cls :: re) (Some x) xs)
             as [[[w' g'] r']|] eqn:Hm.
           ++ injection H as <- <- <-. apply IHinp in Hm as [Hm E].
              split; [now apply matches_star_cons|now rewrite E].
           ++ apply IH in H as [H E].
              split; [now apply matches_star_nil|exact E].
        -- apply IH in H as [H E].
           split; [now apply matches_star_nil|exact E].
    + revert prev w g r H.
      induction inp as [|x xs IHinp]; intros prev w g r H.
      * rewrite match_here_group_nil in H. discriminate.
      * rewrite match_here_group_cons in H.
        destruct (cls x) eqn:Hx; [|discriminate].
        destruct (regexp.match_here re (Some x) xs) as [[[w' g'] r']|] eqn:Hm.
        -- injection H as <- <- <-. apply IH in Hm as [Hm E].
           split; [now apply (matches_group_one cls re prev x _ _ g')
                  |now rewrite E].
        -- destruct (regexp.match_here (regexp.LazyPlusGroup cls :: re) (Some x) xs)
             as [[[w' g'] r']|] eqn:Hl; [|discriminate].
           injection H as <- <- <-. apply IHinp in Hl as [Hl E].
           split; [now apply matches_group_cons|now rewrite E].
    + simpl in H.
      destruct (xorb (regexp.is_word prev) (regexp.is_word (head inp))) eqn:Hb;
        [|discriminate].
      apply IH in H as [H E]. split; [|exact E].
      constructor; [|exact H].
      intros Eb. rewrite Eb, xorb_nilpotent in Hb. discriminate.
Qed.

(** The matcher is complete: where the pattern matches, it succeeds. *)
Lemma match_here_complete (re : regexp.Regexp) prev inp w g :
  matches re prev inp w g -> is_Some (regexp.match_here re prev inp).
Proof.
  induction 1 as [prev inp|s re prev inp w g Hm IH|cls re prev a inp w g Ha Hm IH
                 |cls re prev a inp w g Hne Ha Hm IH|re prev inp w g Hb Hm IH].
  - eexists; reflexivity.
  - simpl. rewrite strip_prefix_app. destruct IH as [[[w' g'] r'] ->].
    eexists; reflexivity.
  - revert prev Hm IH. induction Ha as [|x a Hx Ha IHa]; intros prev Hm IH.
    + change ([] ++ inp) with inp.
      change (regexp.last_of prev []) with prev in IH.
      destruct inp as [|y ys].
      * now rewrite match_here_star_nil.
      * rewrite match_here_star_cons. destruct (cls y); [|exact IH].
        destruct (regexp.match_here (regexp.Star cls :: re) (Some y) ys)
          as [[[w' g'] r']|]; [eexists; reflexivity|exact IH].
    + change ((x :: a) ++ inp) with (x :: (a ++ inp)).
      rewrite match_here_star_cons, Hx.
      destruct (IHa (Some x) Hm IH) as [[[w' g'] r'] ->].
      eexists; reflexivity.
  - revert prev Hm IH Hne. induction Ha as [|x a Hx Ha IHa]; intros prev Hm IH Hne.
    + contradiction.
    + change ((x :: a) ++ inp) with (x :: (a ++ inp)).
      rewrite match_here_group_cons, Hx.
      destruct (regexp.match_here re (Some x) (a ++ inp))
        as [[[w' g'] r']|] eqn:Hr; [eexists; reflexivity|].
      destruct a as [|y a].
      * change ([] ++ inp) with inp in Hr.
        change (regexp.last_of prev [x]) with (Some x) in IH.
        rewrite Hr in IH. destruct IH as [? IH]. discriminate.
      * destruct (IHa (Some x) Hm IH) as [[[w' g'] r'] ->]; [discriminate|].
        eexists; reflexivity.
  - simpl. destruct (regexp.is_word prev), (regexp.is_word (head inp));
      simpl; try exact IH; now contradiction Hb.
Qed.

(** ** The leftmost match *)

Lemma find_from_eq re prev inp :
  regexp.find_from re prev inp
  = match regexp.match_here re prev inp with
    | Some m => Some (O, m)
    | None =>
        match inp with
        | x :: xs =>
            match regexp.find_from re (Some x) xs with
            | Some (k, m) => Some (S k, m)
            | None => None
            end
        | [] => None
        end
    end.
Proof. destruct inp; reflexivity. Qed.

Lemma find_from_Some re :
  forall inp prev k w g r,
    regexp.find_from re prev inp = Some (k, (w, g, r)) ->
    exists pre,
      length pre = k /\ inp = pre ++ w ++ r
      /\ regexp.match_here re (regexp.last_of prev pre) (w ++ r) = Some (w, g, r)
      /\ forall pre' post',
           inp = pre' ++ post' -> (length pre' < k)%nat ->
           regexp.match_here re (regexp.last_of prev pre') post' = None.
Proof.
  induction inp as [|x xs IH]; intros prev k w g r H; rewrite find_from_eq in H.
  - destruct (regexp.match_here re prev []) as [m|] eqn:Hm; [|discriminate].
    injection H as <- ->. exists []. pose proof (match_here_sound _ _ _ _ _ _ Hm) as [_ E].
    repeat split; [exact E|now rewrite <- E|intros; lia].
  - destruct (regexp.match_here re prev (x :: xs)) as [m|] eqn:Hm.
    + injection H as <- ->. exists [].
      pose proof (match_here_sound _ _ _ _ _ _ Hm) as [_ E].
      repeat split; [exact E|now rewrite <- E|intros; lia].
    + destruct (regexp.find_from re (Some x) xs) as [[k' m]|] eqn:Hf; [|discriminate].
      injection H as <- ->.
      destruct (IH _ _ _ _ _ Hf) as (pre & Hlen & E & Hh & Hleft).
      exists (x :: pre). repeat split.
      * simpl. now rewrite Hlen.
      * simpl. now rewrite E.
      * exact Hh.
      * intros pre' post' E' Hlt. destruct pre' as [|y pre'].
        -- simpl in E'. subst post'. exact Hm.
        -- simpl in E'. injection E' as <- E'.
           apply (Hleft pre' post' E'). simpl in Hlt. lia.
Qed.

Lemma find_from_None re :
  forall inp prev,
    regexp.find_from re prev inp = None ->
    forall pre' post',
      inp = pre' ++ post' ->
      regexp.match_here re (regexp.last_of prev pre') post' = None.
Proof.
  induction inp as [|x xs IH]; intros prev H pre' post' E;
    rewrite find_from_eq in H.
  - destruct (regexp.match_here re prev []) eqn:Hm; [discriminate|].
    symmetry in E. apply app_eq_nil in E as [-> ->]. exact Hm.
  - destruct (regexp.match_here re prev (x :: xs)) eqn:Hm; [discriminate|].
    destruct (regexp.find_from re (Some x) xs) as [[k' m]|] eqn:Hf;
      [discriminate|].
    destruct pre' as [|y pre'].
    + simpl in E. subst post'. exact Hm.
    + simpl in E. injection E as <- E. exact (IH _ Hf pre' post' E).
Qed.

Lemma allMatches_S fuel re buf n pos pme :
  regexp.allMatches (S fuel) re buf n pos pme
  = if (n =? 0)%nat || (length buf <? pos)%nat then []
    else
      match regexp.doExecute re buf pos with
      | None => []
      | Some (start, stop, m) =>
          let empty := (stop =? pos)%nat in
          let accept := negb (empty && bool_decide (Some start = pme)) in
          let width :=
            snd (utf8.DecodeRuneInString
                   (string_of_list_ascii (drop pos buf))) in
          let pos' :=
            if empty then
              (if (0 <? width)%nat then (pos + width)%nat else S (length buf))
            else stop in
          if accept
          then m :: regexp.allMatches fuel re buf (n - 1) pos' (Some stop)
          else regexp.allMatches fuel re buf n pos' (Some stop)
      end.
Proof. reflexivity. Qed.

(** The first element of [FindAllSubmatch] is the leftmost match. *)
Lemma FindAllSubmatch_head re buf :
  head (regexp.FindAllSubmatch re buf)
  = match regexp.find_from re None buf with
    | Some (_, (w, g, _)) => Some {| regexp.whole := w; regexp.group1 := g |}
    | None => None
    end.
Proof.
  unfold regexp.FindAllSubmatch.
  replace (length buf + 2)%nat with (S (length buf + 1)) by lia.
  rewrite allMatches_S.
  replace (length buf + 1 =? 0)%nat with false
    by (symmetry; apply Nat.eqb_neq; lia).
  replace (length buf <? 0)%nat with false
    by (symmetry; apply Nat.ltb_ge; lia).
  unfold regexp.doExecute. change (regexp.byte_before buf 0) with (@None ascii).
  change (drop 0 buf) with buf.
  destruct (regexp.find_from re None buf) as [[k [[w g] r]]|]; [|reflexivity].
  cbv zeta. rewrite (bool_decide_eq_false_2 (Some (0 + k)%nat = None))
    by discriminate.
  rewrite andb_false_r. reflexivity.
Qed.

(** Every match delivered was found by the search from some offset. *)
Lemma allMatches_found re buf m :
  forall fuel n pos pme,
    m ∈ regexp.allMatches fuel re buf n pos pme ->
    exists pos' start stop,
      regexp.doExecute re buf pos' = Some (start, stop, m).
Proof.
  induction fuel as [|fuel IH]; intros n pos pme Hin.
  - apply elem_of_nil in Hin. contradiction.
  - rewrite allMatches_S in Hin.
    destruct ((n =? 0)%nat || (length buf <? pos)%nat);
      [apply elem_of_nil in Hin; contradiction|].
    destruct (regexp.doExecute re buf pos) as [[[start stop] m']|] eqn:Hd;
      [|apply elem_of_nil in Hin; contradiction].
    cbv zeta in Hin.
    destruct (negb _) in Hin.
    + apply elem_of_cons in Hin as [->|Hin]; [eauto|eauto].
    + eauto.
Qed.

Lemma doExecute_matches re buf pos start stop m :
  regexp.doExecute re buf pos = Some (start, stop, m) ->
  exists prev inp, matches re prev inp (regexp.whole m) (regexp.group1 m).
Proof.
  unfold regexp.doExecute. intros H.
  destruct (regexp.find_from re (regexp.byte_before buf pos) (drop pos buf))
    as [[k [[w g] r]]|] eqn:Hf; [|discriminate].
  injection H as _ _ <-.
  destruct (find_from_Some _ _ _ _ _ _ _ Hf) as (pre & _ & _ & Hh & _).
  apply match_here_sound in Hh as [Hh _]. eauto.
Qed.

(** ** The shape of a match of [apiKeyRegexp] *)

Lemma not_nl_not_elem (a : list ascii) :
  Forall (fun c => regexp.any_char_not_nl c = true) a -> newline ∉ a.
Proof.
  intros H Hin. rewrite Forall_forall in H. apply H in Hin.
  unfold regexp.any_char_not_nl in Hin. rewrite Ascii.eqb_refl in Hin.
  discriminate.
Qed.

(** Take a derivation apart, node by node of the pattern. *)
Ltac invert_matches :=
  repeat match goal with
         | H : matches (_ :: _) _ _ _ _ |- _ => inversion H; subst; clear H
         | H : matches [] _ _ _ _ |- _ => inversion H; subst; clear H
         end.

Lemma apiKeyRegexp_shape prev inp w g :
  matches apiKeyRegexp prev inp w g -> statement_shape w g.
Proof.
  unfold apiKeyRegexp. intros H. invert_matches.
  unfold statement_shape.
  repeat match goal with
         | H : Forall (fun c => regexp.any_char_not_nl c = true) _ |- _ =>
             apply not_nl_not_elem in H
         end.
  do 4 eexists. split; [reflexivity|]. auto 10.
Qed.

(** ** [Opt.GetAPIKey] *)

Lemma no_match_in re buf :
  regexp.find_from re None buf = None -> ~ matches_in re buf.
Proof.
  intros Hf (pre & w & g & post & E & Hm).
  apply match_here_complete in Hm as [m Hm].
  rewrite (find_from_None _ _ _ Hf pre (w ++ post) E) in Hm. discriminate.
Qed.

Lemma first_match_found re buf k w g r :
  regexp.find_from re None buf = Some (k, (w, g, r)) ->
  exists pre, length pre = k /\ first_match re buf pre w g.
Proof.
  intros Hf. destruct (find_from_Some _ _ _ _ _ _ _ Hf)
    as (pre & Hlen & E & Hh & Hleft).
  exists pre. split; [exact Hlen|]. exists r. repeat split.
  - exact E.
  - exact Hh.
  - now apply match_here_sound in Hh as [Hh _].
  - intros pre' post' w' g' E' Hlt Hm.
    apply match_here_complete in Hm as [m Hm].
    rewrite (Hleft pre' post' E') in Hm by lia. discriminate.
Qed.

(** C2.  An explicit key is returned as it is.  Without one, an
    unreadable file and a file in which the pattern matches nowhere give
    the empty string; otherwise the group of the first match is returned.
    The result is a string on every path: no error is raised.  On the
    configuration line of the specification the key is [secret123]. *)
Theorem GetAPIKey_resolves (fs : FileSystem) (o : Opt.t) :
  resolves fs o (Opt.GetAPIKey fs o)
  /\ Opt.GetAPIKey (conf_only conf_example) default_Opt = "secret123".
Proof.
  split; [|vm_compute; reflexivity].
  unfold Opt.GetAPIKey.
  destruct (Opt.APIKey o) as [|c key] eqn:Hkey.
  - simpl. destruct (fs conf_path) as [buf|] eqn:Hfs.
    + pose proof (FindAllSubmatch_head apiKeyRegexp buf) as Hhead.
      destruct (regexp.FindAllSubmatch apiKeyRegexp buf) as [|m ms].
      * destruct (regexp.find_from apiKeyRegexp None buf)
          as [[k [[w g] r]]|] eqn:Hf; [discriminate|].
        apply (R_no_match fs o buf Hkey Hfs). now apply no_match_in.
      * destruct (regexp.find_from apiKeyRegexp None buf)
          as [[k [[w g] r]]|] eqn:Hf; [|discriminate].
        simpl in Hhead. injection Hhead as ->.
        destruct (first_match_found _ _ _ _ _ _ Hf) as (pre & _ & Hfirst).
        exact (R_first fs o buf pre w g Hkey Hfs Hfirst).
    + now apply R_unreadable.
  - simpl. rewrite <- Hkey. apply R_explicit. rewrite Hkey. discriminate.
Qed.

Lemma apiKey_on_line_app (mid post : list ascii) :
  newline ∉ mid -> apiKey_on_line (mid ++ lit_apiKey ++ post) = true.
Proof.
  induction mid as [|x mid IH]; intros Hnl.
  - reflexivity.
  - change ((x :: mid) ++ lit_apiKey ++ post)
      with (x :: (mid ++ lit_apiKey ++ post)).
    unfold apiKey_on_line; fold apiKey_on_line.
    destruct (regexp.strip_prefix lit_apiKey (x :: mid ++ lit_apiKey ++ post));
      [reflexivity|].
    destruct (Ascii.eqb x newline) eqn:E.
    + apply Ascii.eqb_eq in E as ->. exfalso. apply Hnl. left.
    + apply IH. intros Hin. apply Hnl. now right.
Qed.

Lemma opening_then_apiKey_app (pre mid post : list ascii) :
  newline ∉ mid ->
  opening_then_apiKey (pre ++ lit_open ++ mid ++ lit_apiKey ++ post) = true.
Proof.
  intros Hnl. induction pre as [|x pre IH].
  - change ([] ++ lit_open ++ mid ++ lit_apiKey ++ post)
      with (lit_open ++ mid ++ lit_apiKey ++ post).
    destruct (lit_open ++ mid ++ lit_apiKey ++ post) as [|y ys] eqn:E;
      [discriminate|].
    unfold opening_then_apiKey; fold opening_then_apiKey.
    rewrite <- E, strip_prefix_app, apiKey_on_line_app by exact Hnl.
    reflexivity.
  - change ((x :: pre) ++ lit_open ++ mid ++ lit_apiKey ++ post)
      with (x :: (pre ++ lit_open ++ mid ++ lit_apiKey ++ post)).
    unfold opening_then_apiKey; fold opening_then_apiKey.
    rewrite IH. apply orb_true_r.
Qed.

Lemma shape_on_line (pre w g post : list ascii) :
  statement_shape w g -> opening_then_apiKey (pre ++ w ++ post) = true.
Proof.
  intros (a & b & w1 & w2 & -> & Ha & Hb & _).
  rewrite <- !app_assoc.
  rewrite (app_assoc a lit_brace), (app_assoc (a ++ lit_brace) b).
  apply opening_then_apiKey_app.
  intros Hin. apply elem_of_app in Hin as [Hin|Hin]; [|contradiction].
  apply elem_of_app in Hin as [Hin|Hin]; [contradiction|].
  apply list_elem_of_singleton in Hin. discriminate.
Qed.

(** C9, as amended.  In every match of the pattern no line break lies
    between [setWebserverConfig(] and [apiKey], nor in the quoted value;
    the white space around [=] may hold line breaks.  When no line of the
    file has [setWebserverConfig(] followed by [apiKey], [Opt.GetAPIKey]
    returns the empty string. *)
Theorem apiKey_same_line (fs : FileSystem) (o : Opt.t) (buf : list ascii) :
  Opt.APIKey o = "" -> fs conf_path = Some buf ->
  (forall m, m ∈ regexp.FindAllSubmatch apiKeyRegexp buf ->
             statement_shape (regexp.whole m) (regexp.group1 m))
  /\ (opening_then_apiKey buf = false -> Opt.GetAPIKey fs o = "").
Proof.
  intros Hkey Hfs. split.
  - intros m Hin. apply allMatches_found in Hin as (pos & start & stop & Hd).
    apply doExecute_matches in Hd as (prev & inp & Hm).
    exact (apiKeyRegexp_shape _ _ _ _ Hm).
  - intros Hno. unfold Opt.GetAPIKey. rewrite Hkey, Hfs. simpl.
    pose proof (FindAllSubmatch_head apiKeyRegexp buf) as Hhead.
    destruct (regexp.FindAllSubmatch apiKeyRegexp buf) as [|m ms];
      [reflexivity|].
    destruct (regexp.find_from apiKeyRegexp None buf)
      as [[k [[w g] r]]|] eqn:Hf; [|discriminate].
    destruct (find_from_Some _ _ _ _ _ _ _ Hf) as (pre & _ & E & Hh & _).
    apply match_here_sound in Hh as [Hm _].
    apply apiKeyRegexp_shape in Hm.
    rewrite E, (shape_on_line pre w g r Hm) in Hno. discriminate.
Qed.

Lemma apiKey_same_line_witness :
  Opt.GetAPIKey (conf_only conf_broken_line) default_Opt = "".
Proof.
  apply (apiKey_same_line (conf_only conf_broken_line) default_Opt
           conf_broken_line); reflexivity.
Defined.

(** C9, as stated, fails: the assignment of this file runs over three
    lines, the match holds line breaks, and the key is returned. *)
Lemma apiKey_match_over_lines :
  Opt.GetAPIKey (conf_only conf_three_lines) default_Opt = "k"
  /\ (regexp.whole <$> head (regexp.FindAllSubmatch apiKeyRegexp conf_three_lines))
     = Some (list_ascii_of_string
               ("setWebserverConfig({apiKey" +:+ String newline "="
                +:+ String newline (quoted "k")))
  /\ (has_line_break <$>
        (regexp.whole <$> head (regexp.FindAllSubmatch apiKeyRegexp conf_three_lines)))
     = Some true.
Proof. vm_compute. repeat split. Qed.

(** ** The decoder *)

(** What [UseNumber] changes: with it a number is kept as its text,
    without it the text is parsed when the body is decoded. *)
Lemma convertNumber_UseNumber (dec : json.Decoder) (lit : string) :
  json.convertNumber (json.UseNumber dec) lit = Some (json.Number lit)
  /\ json.convertNumber json.NewDecoder lit
     = json.Float <$> strconv.ParseFloat lit.
Proof.
  split; [reflexivity|]. unfold json.convertNumber, json.NewDecoder.
  cbn [json.useNumber]. now destruct (strconv.ParseFloat lit).
Qed.

Lemma store_field_None (d : json.Decoder) (fields : list (string * json.Syntax)) :
  fold_left (json.store_field d) fields None = None.
Proof. induction fields as [|kx fields IH]; [reflexivity|exact IH]. Qed.

(** After an object is decoded, a key holds the value of its last
    occurrence, and a key that does not occur holds what it held. *)
Lemma store_fields_lookup (d : json.Decoder) (k : string) :
  forall fields m t,
    fold_left (json.store_field d) fields (Some m) = Some t ->
    t !! k = match field fields k with
             | Some x => json.valueInterface d x
             | None => m !! k
             end.
Proof.
  induction fields as [|[k' x] fields IH]; intros m t H.
  - simpl in H. now injection H as ->.
  - cbn [fold_left] in H. unfold json.store_field at 2 in H. cbn [fst snd] in H.
    destruct (json.valueInterface d x) as [v|] eqn:Hv.
    + rewrite (IH _ _ H). cbn [field fst snd].
      destruct (field fields k) as [y|]; [reflexivity|].
      destruct (String.eqb_spec k' k) as [->|Hne].
      * now rewrite lookup_insert_eq.
      * now rewrite lookup_insert_ne.
    + rewrite store_field_None in H. discriminate.
Qed.

Lemma Decode_lookup (d : json.Decoder) fields t (k : string) :
  json.Decode d (json.SObject fields) = Some t ->
  t !! k = field fields k ≫= json.valueInterface d.
Proof.
  intros H. rewrite (store_fields_lookup d k _ _ _ H).
  destruct (field fields k); [reflexivity|apply lookup_empty].
Qed.

(** ** The coercion of the fields *)

Lemma coerceFields_lookup (rt : Runtime) (t : gmap string json.Value)
  (k : string) :
  Plugin.coerceFields rt t !! k
  = t !! k ≫= (fun b => strconv.ParseFloat (fmt.Sprintf_v (fmtFloat rt) b)).
Proof.
  unfold Plugin.coerceFields. revert k.
  apply (map_fold_weak_ind
           (fun (r : gmap string strconv.float64) (m : gmap string json.Value) =>
              forall k,
                r !! k
                = m !! k ≫= (fun b => strconv.ParseFloat
                                        (fmt.Sprintf_v (fmtFloat rt) b)))).
  - intros k. now rewrite !lookup_empty.
  - intros i b m r Hi IH k. unfold Plugin.coerce_step.
    destruct (decide (i = k)) as [->|Hne].
    + rewrite lookup_insert_eq. simpl.
      destruct (strconv.ParseFloat (fmt.Sprintf_v (fmtFloat rt) b)) as [f|].
      * now rewrite lookup_insert_eq.
      * now rewrite IH, Hi.
    + rewrite (lookup_insert_ne m) by exact Hne.
      destruct (strconv.ParseFloat (fmt.Sprintf_v (fmtFloat rt) b)) as [f|].
      * rewrite lookup_insert_ne by exact Hne. apply IH.
      * apply IH.
Qed.

Lemma is_digit_zero (c : ascii) : is_digit c = false -> Ascii.eqb c "0" = false.
Proof.
  intros H. destruct (Ascii.eqb c "0") eqn:E; [|reflexivity].
  apply Ascii.eqb_eq in E as ->. discriminate.
Qed.

(** A text that begins with none of the bytes a number can begin with is
    a syntax error. *)
Lemma ParseFloat_bad_start (c : ascii) (s : string) :
  can_start_number c = false -> strconv.ParseFloat (String c s) = None.
Proof.
  unfold can_start_number, one_of. simpl existsb. intros H.
  repeat (apply orb_false_iff in H as [? H]).
  pose proof (is_digit_zero c ltac:(assumption)) as Hz.
  unfold strconv.ParseFloat, strconv.special, strconv.readFloat.
  repeat match goal with E : Ascii.eqb c _ = false |- _ => rewrite E; clear E end.
  simpl orb. cbv iota.
  assert (Hrd : strconv.read_digits false strconv.digits0 (String c s)
                = (strconv.digits0, String c s)).
  { simpl.
    repeat match goal with E : _ = false |- _ => rewrite E end. reflexivity. }
  destruct s as [|b [|d s']]; try (rewrite Hrd; reflexivity).
  rewrite Hz. simpl andb. cbv iota. rewrite Hrd. reflexivity.
Qed.

Lemma not_numeric_dropped (ff : strconv.float64 -> string) (v : json.Value) :
  not_numeric_kind v = true ->
  strconv.ParseFloat (fmt.Sprintf_v ff v) = None.
Proof.
  destruct v as [|[|]|lit|f|s|elems|fields]; intros H; try discriminate H;
    simpl fmt.Sprintf_v; try rewrite append_cons;
    now apply ParseFloat_bad_start.
Qed.

Lemma FetchMetrics_decoded fuel w rt p req out res x t :
  Plugin.buildRequest w p = inl req ->
  http.Do fuel w (Plugin.httpClient p) req = Some out ->
  http.err out = None -> http.response out = Some res ->
  Scan rt (http.Body res) = Some x -> json.Decode decoder x = Some t ->
  Plugin.FetchMetrics fuel w rt p = Some (inl (Plugin.coerceFields rt t)).
Proof.
  intros Hb Hd He Hr Hx Ht. unfold Plugin.FetchMetrics.
  rewrite Hb, Hd, He, Hr, Hx. cbn [mbind option_bind].
  fold decoder. now rewrite Ht.
Qed.

(** C1.  The loop stores, for every field, the float64 that [ParseFloat]
    reads in the text [Sprintf "%v"] gives for its value, and stores
    nothing for a field whose text does not parse; [nil], booleans, arrays
    and objects never parse.  Once the body is decoded the call returns the
    map with a nil error.  For the body of the specification the map is
    exactly [queries -> 42, latency-avg1000000 -> 55.5]. *)
Theorem FetchMetrics_coercion (rt : Runtime) (t : gmap string json.Value) :
  (forall k,
     Plugin.coerceFields rt t !! k
     = t !! k ≫= (fun b => strconv.ParseFloat (fmt.Sprintf_v (fmtFloat rt) b)))
  /\ (forall k b,
        t !! k = Some b -> not_numeric_kind b = true ->
        Plugin.coerceFields rt t !! k = None)
  /\ (forall fuel w p req out res x,
        Plugin.buildRequest w p = inl req ->
        http.Do fuel w (Plugin.httpClient p) req = Some out ->
        http.err out = None -> http.response out = Some res ->
        Scan rt (http.Body res) = Some x -> json.Decode decoder x = Some t ->
        Plugin.FetchMetrics fuel w rt p
        = Some (inl (Plugin.coerceFields rt t)))
  /\ Plugin.coerceFields rt <$> json.Decode decoder body_example
     = Some {[ "queries" := f64_42; "latency-avg1000000" := f64_55_5 ]}
  /\ float64_is f64_42 42 1 /\ float64_is f64_55_5 111 2.
Proof.
  split; [|split; [|split; [|split; [|split]]]].
  - apply coerceFields_lookup.
  - intros k b Hk Hb. rewrite coerceFields_lookup, Hk. simpl.
    now apply not_numeric_dropped.
  - intros. eapply FetchMetrics_decoded; eassumption.
  - vm_compute. reflexivity.
  - split; reflexivity.
  - split; reflexivity.
Qed.

(** C7.  The decoder runs with [UseNumber]: a top-level field whose value
    is a JSON number is decoded to the text of its literal, and the
    float64 stored for it is [ParseFloat] of that text; no float64 stands
    between the literal and the final conversion. *)
Theorem number_parsed_from_literal
  (rt : Runtime) (fields : list (string * json.Syntax))
  (t : gmap string json.Value) (k lit : string) :
  json.Decode decoder (json.SObject fields) = Some t ->
  field fields k = Some (json.SNumber lit) ->
  t !! k = Some (json.Number lit)
  /\ Plugin.coerceFields rt t !! k = strconv.ParseFloat lit.
Proof.
  intros Ht Hk.
  assert (H : t !! k = Some (json.Number lit)).
  { rewrite (Decode_lookup _ _ _ k Ht), Hk. reflexivity. }
  split; [exact H|]. now rewrite coerceFields_lookup, H.
Qed.

Lemma number_parsed_from_literal_witness :
  body_decoded !! "queries" = Some (json.Number "42")
  /\ Plugin.coerceFields empty_body_runtime body_decoded !! "queries"
     = strconv.ParseFloat "42".
Proof.
  apply (number_parsed_from_literal empty_body_runtime example_fields
           body_decoded "queries" "42");
    vm_compute; reflexivity.
Defined.

(** ** The HTTP client *)

(** [Do] returns a response or an error, whatever the client. *)
Lemma do_loop_response_or_error (w : http.World) (c : http.Client) :
  forall fuel reqs req prior out,
    http.do_loop fuel w c reqs req prior = Some out ->
    is_Some (http.response out) \/ is_Some (http.err out).
Proof.
  induction fuel as [|fuel IH]; intros reqs req prior out H; [discriminate|].
  assert (Hsend : forall r,
             match http.RoundTrip w reqs r with
             | inr e =>
                 Some {| http.response := None; http.err := Some e;
                         http.sent := reqs ++ [r] |}
             | inl resp =>
                 let '(m, should) := http.redirectBehavior (http.Method r) resp in
                 if negb should
                 then Some {| http.response := Some resp; http.err := None;
                              http.sent := reqs ++ [r] |}
                 else http.do_loop fuel w c (reqs ++ [r]) r (Some (resp, m))
             end = Some out ->
             is_Some (http.response out) \/ is_Some (http.err out)).
  { intros r Hr. destruct (http.RoundTrip w reqs r) as [resp|e].
    - destruct (http.redirectBehavior (http.Method r) resp) as [m should].
      destruct should; simpl in Hr.
      + exact (IH _ _ _ _ Hr).
      + injection Hr as <-. left. eexists; reflexivity.
    - injection Hr as <-. right. eexists; reflexivity. }
  cbn [http.do_loop] in H. destruct prior as [[resp m]|].
  - destruct (is_empty (http.Header_Get (http.RespHeader resp) "Location")).
    + injection H as <-. left. eexists; reflexivity.
    + destruct (http.URL_Parse w (http.ReqURL req)
                  (http.Header_Get (http.RespHeader resp) "Location")) as [u|].
      * destruct (http.checkRedirect c _ reqs) as [e|].
        -- destruct e; injection H as <-; left; eexists; reflexivity.
        -- exact (Hsend _ H).
      * injection H as <-. right. eexists; reflexivity.
  - exact (Hsend _ H).
Qed.

Lemma checkRedirect_httpClient p req via :
  http.checkRedirect (Plugin.httpClient p) req via = Some ErrUseLastResponse.
Proof. reflexivity. Qed.

(** C5, as amended.  The client never follows a redirect: whatever the
    first response is, [Do] sends the one request and stops.  A response
    that asks for a redirect is returned as it is, with a nil error, when
    it has no [Location] header or its [Location] parses; when its
    [Location] does not parse, [Do] returns an error instead, as the next
    hop is built before [CheckRedirect] is asked. *)
Theorem Do_stops_at_first_response
  (n : nat) (w : http.World) (p : Plugin.t) (req : http.Request)
  (resp : http.Response) :
  http.RoundTrip w [] req = inl resp ->
  http.Do (S (S n)) w (Plugin.httpClient p) req
  = Some (if asks_redirect req resp && negb (location_ok w req resp)
          then location_error [req] resp
          else returned_as_is [req] resp).
Proof.
  intros Hrt. unfold http.Do, asks_redirect, location_ok, Location.
  cbn [http.do_loop]. rewrite Hrt. cbn [app].
  destruct (http.redirectBehavior (http.Method req) resp) as [m b].
  destruct b; cbn [negb snd andb]; [|reflexivity].
  destruct (is_empty (http.Header_Get (http.RespHeader resp) "Location"));
    cbn [orb negb]; [reflexivity|].
  destruct (http.URL_Parse w (http.ReqURL req)
              (http.Header_Get (http.RespHeader resp) "Location"));
    cbn [negb]; [|reflexivity].
  rewrite checkRedirect_httpClient. reflexivity.
Qed.

Lemma Do_stops_at_first_response_witness :
  http.Do 2 (fixed_server (redirect_to 302 "/other"))
    (Plugin.httpClient (new_Plugin "dnsdist")) stats_request
  = Some (returned_as_is [stats_request] (redirect_to 302 "/other")).
Proof.
  apply (Do_stops_at_first_response 0 (fixed_server (redirect_to 302 "/other"))
           (new_Plugin "dnsdist") stats_request (redirect_to 302 "/other")).
  reflexivity.
Defined.

(** C5, as stated, fails on a redirect whose [Location] holds a control
    character: [Do] returns an error and no response, and so does
    [Plugin.FetchMetrics]. *)
Lemma redirect_with_bad_location :
  http.Do 2 (fixed_server (redirect_to 302 bad_location))
    (Plugin.httpClient (new_Plugin "dnsdist")) stats_request
  = Some {| http.response := None;
            http.err := Some (ErrParseLocation bad_location);
            http.sent := [stats_request] |}
  /\ Plugin.FetchMetrics 2 (fixed_server (redirect_to 302 bad_location))
       empty_body_runtime (new_Plugin "dnsdist")
     = Some (inr (ErrParseLocation bad_location)).
Proof. split; vm_compute; reflexivity. Qed.

(** * Further properties of the code *)

(** ** [Opt.URL]: the host part cannot reach the path or the query *)

Lemma string_forallb_app (p : ascii -> bool) (s t : string) :
  string_forallb p (s +:+ t) = string_forallb p s && string_forallb p t.
Proof.
  induction s as [|c s IH]; [reflexivity|].
  rewrite append_cons. simpl. rewrite IH. now rewrite andb_assoc.
Qed.

Lemma escape_byte_authority (c : ascii) :
  string_forallb authority_byte (url.escape_byte url.encodeHost c) = true.
Proof.
  destruct c as [[|] [|] [|] [|] [|] [|] [|] [|]]; vm_compute; reflexivity.
Qed.

Lemma escape_authority (s : string) :
  string_forallb authority_byte (url.escape s url.encodeHost) = true.
Proof.
  induction s as [|c s IH]; [reflexivity|].
  simpl url.escape. rewrite string_forallb_app, escape_byte_authority, IH.
  reflexivity.
Qed.

Lemma authority_byte_plain (c : ascii) :
  authority_byte c = true ->
  one_of "/?#@ " c = false /\ http.is_CTL c = false /\ byte_val c < 128.
Proof.
  destruct c as [[|] [|] [|] [|] [|] [|] [|] [|]]; vm_compute;
    intros H; try discriminate H; repeat split; reflexivity.
Qed.

Lemma URL_authority (o : Opt.t) :
  Opt.URL o = "http://" +:+ authority o +:+ "/jsonstat?command=stats".
Proof.
  unfold Opt.URL, url.URL_String, authority. simpl url.Scheme.
  simpl url.Host. simpl url.RawQuery.
  rewrite JoinHostPort_not_empty.
  change (url.EscapedPath _) with "/jsonstat".
  change (is_empty "http") with false.
  cbv iota beta. simpl negb. simpl orb. simpl andb. cbv iota.
  change (is_empty "command=stats") with false. cbv iota.
  rewrite !append_assoc. reflexivity.
Qed.

(** X1.  Whatever the host and port options hold, the URL is [http://],
    a host part, and [/jsonstat?command=stats]; every byte of the host
    part is one that a URL host may hold or belongs to a percent escape,
    so it holds no slash, question mark, number sign, at sign, space,
    control character or byte above 127: the options cannot change the
    path or the query of the request. *)
Theorem URL_path_and_query_fixed (o : Opt.t) :
  Opt.URL o = "http://" +:+ authority o +:+ "/jsonstat?command=stats"
  /\ string_forallb authority_byte (authority o) = true
  /\ string_forallb
       (fun c => negb (one_of "/?#@ " c) && negb (http.is_CTL c)
                 && (byte_val c <? 128))
       (authority o) = true.
Proof.
  split; [apply URL_authority|]. split; [apply escape_authority|].
  unfold authority.
  induction (net.JoinHostPort (Opt.Host o) (Opt.Port o)) as [|c s IH];
    [reflexivity|].
  simpl url.escape. rewrite string_forallb_app, IH, andb_true_r.
  pose proof (escape_byte_authority c) as Hc.
  induction (url.escape_byte url.encodeHost c) as [|d e IHe]; [reflexivity|].
  simpl in Hc |- *. apply andb_prop in Hc as [Hd He].
  destruct (authority_byte_plain d Hd) as (H1 & H2 & H3).
  rewrite H1, H2, (IHe He). simpl.
  rewrite andb_true_r. apply Z.ltb_lt. exact H3.
Qed.

(** ** [Opt.GetAPIKey]: where the key of the file stands *)

(** Without an explicit key, the result is the group of the leftmost
    match, or empty when there is none. *)
Lemma GetAPIKey_leftmost (fs : FileSystem) (o : Opt.t) (buf : list ascii) :
  Opt.APIKey o = "" -> fs conf_path = Some buf ->
  match regexp.find_from apiKeyRegexp None buf with
  | Some (_, (_, g, _)) => Opt.GetAPIKey fs o = string_of_list_ascii g
  | None => Opt.GetAPIKey fs o = ""
  end.
Proof.
  intros Hkey Hfs. unfold Opt.GetAPIKey. rewrite Hkey, Hfs. simpl.
  pose proof (FindAllSubmatch_head apiKeyRegexp buf) as Hhead.
  destruct (regexp.find_from apiKeyRegexp None buf) as [[k [[w g] r]]|].
  - destruct (regexp.FindAllSubmatch apiKeyRegexp buf) as [|m ms];
      [discriminate|].
    simpl in Hhead. injection Hhead as ->. reflexivity.
  - destruct (regexp.FindAllSubmatch apiKeyRegexp buf) as [|m ms];
      [reflexivity|discriminate].
Qed.

Lemma apiKeyRegexp_boundary prev inp w g :
  matches apiKeyRegexp prev inp w g ->
  exists a b w1 w2,
    w = lit_open ++ a ++ lit_brace ++ b ++ lit_apiKey ++ w1 ++ lit_eq ++ w2
        ++ [dquote] ++ g ++ [dquote]
    /\ regexp.is_word (regexp.last_of prev (lit_open ++ a ++ lit_brace ++ b))
       = false
    /\ Forall (fun c => regexp.perl_space c = true) w1
    /\ Forall (fun c => regexp.perl_space c = true) w2.
Proof.
  unfold apiKeyRegexp. intros H. invert_matches.
  match goal with
  | Hb : regexp.is_word ?x <> regexp.is_word _ |- _ =>
      assert (Hw : regexp.is_word x = false)
        by (destruct (regexp.is_word x); [exfalso; apply Hb|]; reflexivity);
      clear Hb
  end.
  do 4 eexists. split; [reflexivity|]. split; [|auto].
  rewrite !last_of_app. exact Hw.
Qed.

(** X2.  A key taken from the file stands there between double quotes,
    after the word [apiKey], white space, an equals sign and white space;
    the byte before [apiKey] is not a letter, a digit or an underscore;
    the key is not empty and holds no line break. *)
Theorem GetAPIKey_found_in_file
  (fs : FileSystem) (o : Opt.t) (buf : list ascii) :
  Opt.APIKey o = "" -> fs conf_path = Some buf -> Opt.GetAPIKey fs o <> "" ->
  exists pre w1 w2 post,
    buf = pre ++ lit_apiKey ++ w1 ++ lit_eq ++ w2 ++ [dquote]
          ++ list_ascii_of_string (Opt.GetAPIKey fs o) ++ [dquote] ++ post
    /\ regexp.is_word (regexp.last_of None pre) = false
    /\ Forall (fun c => regexp.perl_space c = true) w1
    /\ Forall (fun c => regexp.perl_space c = true) w2
    /\ newline ∉ list_ascii_of_string (Opt.GetAPIKey fs o).
Proof.
  intros Hkey Hfs Hne.
  pose proof (GetAPIKey_leftmost fs o buf Hkey Hfs) as Hg.
  destruct (regexp.find_from apiKeyRegexp None buf) as [[k [[w g] r]]|] eqn:Hf;
    [|contradiction].
  rewrite Hg, list_ascii_of_string_of_list_ascii.
  destruct (find_from_Some _ _ _ _ _ _ _ Hf) as (pre & _ & E & Hh & _).
  apply match_here_sound in Hh as [Hm _].
  pose proof (apiKeyRegexp_shape _ _ _ _ Hm) as (_ & _ & _ & _ & _ & _ & _ & Hnl & _).
  apply apiKeyRegexp_boundary in Hm as (a & b & w1 & w2 & -> & Hw & H1 & H2).
  exists (pre ++ lit_open ++ a ++ lit_brace ++ b), w1, w2, r.
  split; [|split; [|auto]].
  - rewrite E, <- !app_assoc. reflexivity.
  - rewrite last_of_app. exact Hw.
Qed.

Lemma GetAPIKey_found_in_file_witness :
  exists pre w1 w2 post,
    conf_example
    = pre ++ lit_apiKey ++ w1 ++ lit_eq ++ w2 ++ [dquote]
      ++ list_ascii_of_string
           (Opt.GetAPIKey (conf_only conf_example) default_Opt)
      ++ [dquote] ++ post
    /\ regexp.is_word (regexp.last_of None pre) = false
    /\ Forall (fun c => regexp.perl_space c = true) w1
    /\ Forall (fun c => regexp.perl_space c = true) w2
    /\ newline ∉ list_ascii_of_string
                   (Opt.GetAPIKey (conf_only conf_example) default_Opt).
Proof.
  apply (GetAPIKey_found_in_file (conf_only conf_example) default_Opt
           conf_example); [reflexivity|reflexivity|].
  vm_compute. discriminate.
Defined.

(** ** [Opt.GetAPIKey]: the value ends at the first closing quote *)

(** A node that is not the group hands on the group of what follows. *)
Lemma match_here_hands_on_group (nd : regexp.node) (re : regexp.Regexp) :
  (forall cls, nd <> regexp.LazyPlusGroup cls) ->
  forall inp prev w g r,
    regexp.match_here (nd :: re) prev inp = Some (w, g, r) ->
    exists prev' inp' w', regexp.match_here re prev' inp' = Some (w', g, r).
Proof.
  intros Hnd. destruct nd as [s|cls|cls|].
  - intros inp prev w g r H. simpl in H.
    destruct (regexp.strip_prefix s inp) as [rest|]; [|discriminate].
    destruct (regexp.match_here re (regexp.last_of prev s) rest)
      as [[[w' g'] r']|] eqn:Hm; [|discriminate].
    injection H as <- <- <-. eauto.
  - induction inp as [|x xs IH]; intros prev w g r H.
    + rewrite match_here_star_nil in H. eauto.
    + rewrite match_here_star_cons in H.
      destruct (cls x); [|eauto].
      destruct (regexp.match_here (regexp.Star cls :: re) (Some x) xs)
        as [[[w' g'] r']|] eqn:Hm; [|eauto].
      injection H as <- <- <-. exact (IH _ _ _ _ Hm).
  - exfalso. exact (Hnd cls eq_refl).
  - intros inp prev w g r H. simpl in H.
    destruct (xorb _ _); [eauto|discriminate].
Qed.

(** The lazy group before a literal byte [q] stops at the first [q] that
    follows its first byte. *)
Lemma lazy_group_stops (cls : ascii -> bool) (q : ascii) :
  forall inp prev w g r,
    regexp.match_here [regexp.LazyPlusGroup cls; regexp.Lit [q]] prev inp
    = Some (w, g, r) ->
    g <> [] /\ q ∉ tail g.
Proof.
  induction inp as [|x xs IH]; intros prev w g r H.
  - rewrite match_here_group_nil in H. discriminate.
  - rewrite match_here_group_cons in H.
    destruct (cls x); [|discriminate].
    destruct (regexp.match_here [regexp.Lit [q]] (Some x) xs)
      as [[[w' g'] r']|] eqn:Hq.
    + injection H as <- <- <-. split; [discriminate|]. simpl. apply not_elem_of_nil.
    + destruct (regexp.match_here
                  [regexp.LazyPlusGroup cls; regexp.Lit [q]] (Some x) xs)
        as [[[w' g'] r']|] eqn:Hl; [|discriminate].
      injection H as <- <- <-. split; [discriminate|]. simpl.
      destruct (IH _ _ _ _ Hl) as [Hne Htl].
      destruct g' as [|y g']; [contradiction|]. simpl in Htl.
      intros Hin. apply elem_of_cons in Hin as [Eq|Hin]; [|contradiction].
      subst y.
      (* the group went on past the second byte, so that byte is not [q] *)
      destruct xs as [|z zs]; [rewrite match_here_group_nil in Hl; discriminate|].
      rewrite match_here_group_cons in Hl.
      destruct (cls z); [|discriminate].
      assert (z = q) as ->.
      { destruct (regexp.match_here [regexp.Lit [q]] (Some z) zs)
          as [[[? ?] ?]|]; [now injection Hl as _ -> _|].
        destruct (regexp.match_here
                    [regexp.LazyPlusGroup cls; regexp.Lit [q]] (Some z) zs)
          as [[[? ?] ?]|]; [now injection Hl as _ -> _|discriminate]. }
      simpl in Hq. rewrite Ascii.eqb_refl in Hq. discriminate.
Qed.

Lemma apiKeyRegexp_group_stops prev inp w g r :
  regexp.match_here apiKeyRegexp prev inp = Some (w, g, r) ->
  g <> [] /\ dquote ∉ tail g.
Proof.
  unfold apiKeyRegexp. intros H.
  do 10 (apply match_here_hands_on_group in H as (? & ? & ? & H);
         [|discriminate]).
  exact (lazy_group_stops _ _ _ _ _ _ _ H).
Qed.

(** X3.  The value is the shortest one: a key taken from the file holds
    no double quote after its first byte.  Its first byte may be a double
    quote: an assignment of the empty string takes the text up to the next
    quote of the line as the key. *)
Theorem GetAPIKey_shortest_value
  (fs : FileSystem) (o : Opt.t) (buf : list ascii) :
  Opt.APIKey o = "" -> fs conf_path = Some buf ->
  dquote ∉ tail (list_ascii_of_string (Opt.GetAPIKey fs o)).
Proof.
  intros Hkey Hfs.
  pose proof (GetAPIKey_leftmost fs o buf Hkey Hfs) as Hg.
  destruct (regexp.find_from apiKeyRegexp None buf) as [[k [[w g] r]]|] eqn:Hf.
  - rewrite Hg, list_ascii_of_string_of_list_ascii.
    destruct (find_from_Some _ _ _ _ _ _ _ Hf) as (pre & _ & _ & Hh & _).
    exact (proj2 (apiKeyRegexp_group_stops _ _ _ _ _ Hh)).
  - rewrite Hg. apply not_elem_of_nil.
Qed.

Lemma GetAPIKey_shortest_value_witness :
  Opt.GetAPIKey (conf_only conf_empty_value) default_Opt
  = String dquote ", password="
  /\ dquote ∉ tail (list_ascii_of_string
                      (Opt.GetAPIKey (conf_only conf_empty_value) default_Opt)).
Proof.
  split; [vm_compute; reflexivity|].
  apply (GetAPIKey_shortest_value (conf_only conf_empty_value) default_Opt
           conf_empty_value); reflexivity.
Defined.

(** ** [Plugin.FetchMetrics]: the request *)

(** X4.  The request is a GET of the plugin's URL; it carries the API key
    in the one header [X-Api-Key], and no header at all when the key is
    empty.  Building it fails only when the URL does not parse. *)
Theorem buildRequest_key_header (w : http.World) (p : Plugin.t) :
  Plugin.buildRequest w p
  = if http.url_Parse w (Plugin.URL p)
    then inl {| http.Method := "GET"; http.ReqURL := Plugin.URL p;
                http.ReqHeader := key_header (Plugin.APIKey p) |}
    else inr ErrParseURL.
Proof.
  unfold Plugin.buildRequest, http.NewRequest, key_header.
  change (http.validMethod "GET") with true. cbn [negb].
  destruct (http.url_Parse w (Plugin.URL p)); [|reflexivity]. cbn [negb].
  destruct (is_empty (Plugin.APIKey p)); [reflexivity|]. cbn [negb].
  unfold http.add_header, http.Header_Add. cbn [http.ReqHeader http.Method http.ReqURL].
  change (http.CanonicalMIMEHeaderKey "X-API-Key") with "X-Api-Key".
  reflexivity.
Qed.

(** ** [Plugin.FetchMetrics]: one request, then the body *)

(** With the client of the plugin, [Do] ends after the first answer. *)
Lemma Do_httpClient (n : nat) (w : http.World) (p : Plugin.t)
  (req : http.Request) :
  http.Do (S (S n)) w (Plugin.httpClient p) req
  = Some match http.RoundTrip w [] req with
         | inr e => transport_failed [req] e
         | inl resp =>
             if asks_redirect req resp && negb (location_ok w req resp)
             then location_error [req] resp
             else returned_as_is [req] resp
         end.
Proof.
  unfold http.Do, asks_redirect, location_ok, Location.
  cbn [http.do_loop]. destruct (http.RoundTrip w [] req) as [resp|e];
    [|reflexivity].
  cbn [app].
  destruct (http.redirectBehavior (http.Method req) resp) as [m b].
  destruct b; cbn [negb snd andb]; [|reflexivity].
  destruct (is_empty (http.Header_Get (http.RespHeader resp) "Location"));
    cbn [orb negb]; [reflexivity|].
  destruct (http.URL_Parse w (http.ReqURL req)
              (http.Header_Get (http.RespHeader resp) "Location"));
    cbn [negb]; reflexivity.
Qed.


(** X6.  The status of the response is not looked at: any response that
    does not ask for a redirect, a 404 or a 500 as well as a 200, gives
    what its body gives. *)
Theorem FetchMetrics_ignores_status
  (n : nat) (w : http.World) (rt : Runtime) (p : Plugin.t)
  (req : http.Request) (resp : http.Response) :
  Plugin.buildRequest w p = inl req ->
  http.RoundTrip w [] req = inl resp ->
  asks_redirect req resp = false ->
  Plugin.FetchMetrics (S (S n)) w rt p
  = Some (metrics_of_body rt (http.Body resp)).
Proof.
  intros Hb Hrt Hno. unfold Plugin.FetchMetrics, metrics_of_body.
  rewrite Hb, Do_httpClient, Hrt, Hno.
  cbn [andb returned_as_is http.err http.response]. fold decoder.
  destruct (Scan rt (http.Body resp) ≫= json.Decode decoder); reflexivity.
Qed.

Lemma FetchMetrics_ignores_status_witness :
  Plugin.FetchMetrics 2 (fixed_server (plain_response 500 [])) example_runtime
    (new_Plugin "dnsdist")
  = Some (inl {[ "queries" := f64_42; "latency-avg1000000" := f64_55_5 ]}).
Proof.
  rewrite (FetchMetrics_ignores_status 0 (fixed_server (plain_response 500 []))
             example_runtime (new_Plugin "dnsdist") stats_request
             (plain_response 500 []));
    vm_compute; reflexivity.
Defined.

(** ** The decoder with [UseNumber] *)

Lemma valueInterface_UseNumber :
  forall x, is_Some (json.valueInterface decoder x).
Proof.
  fix IH 1. intros [|b|lit|s|elems|fields]; try (eexists; reflexivity).
  - assert (H : is_Some
                  ((fix values (l : list json.Syntax) :=
                      match l with
                      | [] => Some []
                      | x :: l' =>
                          match json.valueInterface decoder x, values l' with
                          | Some v, Some vs => Some (v :: vs)
                          | _, _ => None
                          end
                      end) elems)).
    { induction elems as [|x l IHl]; [eexists; reflexivity|].
      destruct (IH x) as [v Hv]. destruct IHl as [vs Hvs].
      rewrite Hv, Hvs. eexists; reflexivity. }
    destruct H as [vs Hvs]. cbn [json.valueInterface]. rewrite Hvs.
    eexists; reflexivity.
  - assert (H : is_Some
                  ((fix values (l : list (string * json.Syntax)) :=
                      match l with
                      | [] => Some []
                      | kx :: l' =>
                          match json.valueInterface decoder (snd kx), values l'
                          with
                          | Some v, Some vs => Some ((fst kx, v) :: vs)
                          | _, _ => None
                          end
                      end) fields)).
    { induction fields as [|[k x] l IHl]; [eexists; reflexivity|].
      destruct (IH x) as [v Hv]. destruct IHl as [vs Hvs].
      cbn [fst snd]. rewrite Hv, Hvs. eexists; reflexivity. }
    destruct H as [vs Hvs]. cbn [json.valueInterface]. rewrite Hvs.
    eexists; reflexivity.
Qed.

Lemma store_fields_UseNumber (fields : list (string * json.Syntax)) :
  forall m, is_Some (fold_left (json.store_field decoder) fields (Some m)).
Proof.
  induction fields as [|[k x] fields IH]; intros m; [eexists; reflexivity|].
  cbn [fold_left]. unfold json.store_field at 2. cbn [fst snd].
  destruct (valueInterface_UseNumber x) as [v ->]. apply IH.
Qed.

(** X7.  With [UseNumber] no field can make the decoding fail: every
    object decodes, whatever its numbers are, and [null] decodes to no
    field; only a body whose value is not an object is refused. *)
Theorem Decode_fails_only_on_non_object (x : json.Syntax) :
  json.Decode decoder json.SNull = Some ∅
  /\ (is_object_or_null x = true -> is_Some (json.Decode decoder x))
  /\ (is_object_or_null x = false -> json.Decode decoder x = None).
Proof.
  split; [reflexivity|]. split; intros H.
  - destruct x; try discriminate H; [eexists; reflexivity|].
    apply store_fields_UseNumber.
  - destruct x; try discriminate H; reflexivity.
Qed.

(** ** From the body to the metrics *)

(** X8.  The metric stored under a key is read off the body alone: it is
    [ParseFloat] of the text of the last field of that name, when that
    field is a number or a string; a key whose last field is anything
    else, or whose text does not parse, or that is not in the body, is not
    in the result. *)
Theorem metrics_of_fields
  (rt : Runtime) (fields : list (string * json.Syntax))
  (t : gmap string json.Value) (k : string) :
  json.Decode decoder (json.SObject fields) = Some t ->
  Plugin.coerceFields rt t !! k
  = (field fields k ≫= scalar_text) ≫= strconv.ParseFloat.
Proof.
  intros Ht. rewrite coerceFields_lookup, (Decode_lookup _ _ _ k Ht).
  destruct (field fields k) as [x|]; [|reflexivity]. cbn [mbind option_bind].
  destruct x as [|b|lit|s|elems|flds]; try reflexivity.
  - cbn. now destruct b.
  - cbn [json.valueInterface scalar_text].
    match goal with
    | |- context [option_map _ ?v] => destruct v as [vs|]
    end; [|reflexivity].
    cbn [option_map mbind option_bind].
    now apply not_numeric_dropped.
  - cbn [json.valueInterface scalar_text].
    match goal with
    | |- context [option_map _ ?v] => destruct v as [vs|]
    end; [|reflexivity].
    cbn [option_map mbind option_bind].
    now apply not_numeric_dropped.
Qed.

Lemma metrics_of_fields_witness :
  Plugin.coerceFields empty_body_runtime
    {[ "queries" := json.Number "42"; "big" := json.Number "1e999" ]}
  !! "queries"
  = Some f64_42.
Proof.
  rewrite (metrics_of_fields empty_body_runtime fields_twice
             {[ "queries" := json.Number "42"; "big" := json.Number "1e999" ]}
             "queries");
    vm_compute; reflexivity.
Defined.

(** ** The order of the loop *)

Lemma coerce_fold_lookup (rt : Runtime) (k : string) :
  forall (entries : list (string * json.Value))
         (acc : gmap string strconv.float64),
    NoDup (entries.*1) ->
    fold_left (fun result kb => Plugin.coerce_step rt (fst kb) (snd kb) result)
      entries acc !! k
    = match list_to_map (M := gmap string json.Value) entries !! k with
      | Some b =>
          match strconv.ParseFloat (fmt.Sprintf_v (fmtFloat rt) b) with
          | Some f => Some f
          | None => acc !! k
          end
      | None => acc !! k
      end.
Proof.
  induction entries as [|[k' b] entries IH]; intros acc Hnd; [reflexivity|].
  rewrite fmap_cons in Hnd. apply NoDup_cons in Hnd as [Hk' Hnd].
  cbn [fold_left fst snd] in *. rewrite (IH _ Hnd).
  cbn [list_to_map foldr uncurry fst snd].
  unfold Plugin.coerce_step.
  destruct (decide (k' = k)) as [->|Hne].
  - rewrite lookup_insert_eq.
    rewrite (not_elem_of_list_to_map_1 _ k Hk').
    destruct (strconv.ParseFloat (fmt.Sprintf_v (fmtFloat rt) b)) as [f|];
      [now rewrite lookup_insert_eq|reflexivity].
  - rewrite (lookup_insert_ne _ k' k) by exact Hne.
    destruct (strconv.ParseFloat (fmt.Sprintf_v (fmtFloat rt) b)) as [f|];
      [now rewrite lookup_insert_ne|reflexivity].
Qed.

(** X9.  The order in which the loop visits the fields does not matter:
    run over the entries of the map in any order, it builds the same
    result. *)
Theorem coerce_any_order
  (rt : Runtime) (t : gmap string json.Value)
  (entries : list (string * json.Value)) :
  entries ≡ₚ map_to_list t ->
  coerce_in_order rt entries = Plugin.coerceFields rt t.
Proof.
  intros Hp. apply map_eq. intros k. unfold coerce_in_order.
  assert (Hnd : NoDup (entries.*1)).
  { rewrite Hp. apply NoDup_fst_map_to_list. }
  rewrite (coerce_fold_lookup rt k entries ∅ Hnd), coerceFields_lookup.
  assert (Hl : list_to_map (M := gmap string json.Value) entries = t).
  { rewrite (list_to_map_proper _ _ Hnd Hp). apply list_to_map_to_list. }
  rewrite Hl, lookup_empty.
  destruct (t !! k) as [b|]; [|reflexivity]. cbn.
  now destruct (strconv.ParseFloat (fmt.Sprintf_v (fmtFloat rt) b)).
Qed.

Lemma coerce_any_order_witness :
  coerce_in_order empty_body_runtime (reverse (map_to_list body_decoded))
  = Plugin.coerceFields empty_body_runtime body_decoded.
Proof.
  apply (coerce_any_order empty_body_runtime body_decoded
           (reverse (map_to_list body_decoded))).
  apply reverse_Permutation.
Defined.

(** ** [Plugin.GraphDefinition]: what the prefix does not touch *)

(** X10.  The prefix only reaches the labels of the graphs: the keys, the
    units and the metrics of the catalog are the same for every prefix.
    Every unit is [integer]; the seventeen metric names are plain names,
    no two of them equal. *)
Theorem GraphDefinition_prefix_only_in_labels
  (u u' : UnicodeTables) (p p' : Plugin.t) :
  unit_and_metrics <$> Plugin.GraphDefinition u p
  = unit_and_metrics <$> Plugin.GraphDefinition u' p'
  /\ map_Forall (fun _ g => mp.Unit g = "integer") (Plugin.GraphDefinition u p)
  /\ length (metric_names (Plugin.GraphDefinition u p)) = 17%nat
  /\ NoDup (metric_names (Plugin.GraphDefinition u p))
  /\ forallb plain_name (metric_names (Plugin.GraphDefinition u p)) = true.
Proof.
  split; [|split; [|split; [|split]]].
  - unfold Plugin.GraphDefinition. rewrite <- !list_to_map_fmap. reflexivity.
  - apply map_Forall_lookup. intros k g Hk.
    apply elem_of_list_to_map_2 in Hk.
    repeat (apply elem_of_cons in Hk as [Hk|Hk];
            [injection Hk as _ ->; reflexivity|]).
    apply elem_of_nil in Hk. contradiction.
  - vm_compute. reflexivity.
  - apply (bool_decide_unpack (NoDup _)). vm_compute. exact I.
  - vm_compute. reflexivity.
Qed.

(** ** [Plugin.GraphDefinition] and [Plugin.MetricKeyPrefix] *)


(** ** [main] *)


(** ** [Opt.GetAPIKey]: the last assignment of the line *)

(** When a greedy star fails, the rest of the pattern fails after every
    run of the class. *)
Lemma star_all_fail (cls : ascii -> bool) (re : regexp.Regexp) :
  forall inp prev,
    regexp.match_here (regexp.Star cls :: re) prev inp = None ->
    forall a rest,
      inp = a ++ rest -> Forall (fun c => cls c = true) a ->
      regexp.match_here re (regexp.last_of prev a) rest = None.
Proof.
  induction inp as [|x xs IH]; intros prev H a rest E Ha.
  - rewrite match_here_star_nil in H.
    symmetry in E. apply app_eq_nil in E as [-> ->]. exact H.
  - rewrite match_here_star_cons in H.
    destruct a as [|y a].
    + simpl in E. subst rest.
      destruct (cls x); [|exact H].
      destruct (regexp.match_here (regexp.Star cls :: re) (Some x) xs)
        as [[[? ?] ?]|]; [discriminate|exact H].
    + simpl in E. injection E as <- E.
      apply Forall_cons in Ha as [Hx Ha]. rewrite Hx in H.
      destruct (regexp.match_here (regexp.Star cls :: re) (Some x) xs)
        as [[[? ?] ?]|] eqn:Hs; [discriminate|].
      exact (IH _ Hs a rest E Ha).
Qed.

(** A greedy star takes the longest run of the class after which the
    rest of the pattern matches. *)
Lemma star_greedy (cls : ascii -> bool) (re : regexp.Regexp) :
  forall inp prev w g r,
    regexp.match_here (regexp.Star cls :: re) prev inp = Some (w, g, r) ->
    exists a w',
      w = a ++ w' /\ inp = a ++ w' ++ r
      /\ Forall (fun c => cls c = true) a
      /\ regexp.match_here re (regexp.last_of prev a) (w' ++ r)
         = Some (w', g, r)
      /\ forall a' rest',
           inp = a' ++ rest' -> Forall (fun c => cls c = true) a' ->
           (length a < length a')%nat ->
           regexp.match_here re (regexp.last_of prev a') rest' = None.
Proof.
  assert (Hstop : forall inp prev w g r,
             regexp.match_here re prev inp = Some (w, g, r) ->
             (forall a' rest',
                inp = a' ++ rest' -> Forall (fun c => cls c = true) a' ->
                (0 < length a')%nat ->
                regexp.match_here re (regexp.last_of prev a') rest' = None) ->
             exists a w',
               w = a ++ w' /\ inp = a ++ w' ++ r
               /\ Forall (fun c => cls c = true) a
               /\ regexp.match_here re (regexp.last_of prev a) (w' ++ r)
                  = Some (w', g, r)
               /\ forall a' rest',
                    inp = a' ++ rest' -> Forall (fun c => cls c = true) a' ->
                    (length a < length a')%nat ->
                    regexp.match_here re (regexp.last_of prev a') rest' = None).
  { intros inp prev w g r H Hmax. exists [], w.
    pose proof (match_here_sound _ _ _ _ _ _ H) as [_ E].
    repeat split; [exact E|constructor|now rewrite <- E|exact Hmax]. }
  induction inp as [|x xs IH]; intros prev w g r H.
  - rewrite match_here_star_nil in H. apply (Hstop _ _ _ _ _ H).
    intros a' rest' E _ Hlen. symmetry in E. apply app_eq_nil in E as [-> _].
    simpl in Hlen. lia.
  - rewrite match_here_star_cons in H. destruct (cls x) eqn:Hx.
    + destruct (regexp.match_here (regexp.Star cls :: re) (Some x) xs)
        as [[[w1 g1] r1]|] eqn:Hs.
      * injection H as <- <- <-.
        destruct (IH _ _ _ _ Hs) as (a & w' & -> & E & Ha & Hm & Hmax).
        exists (x :: a), w'. repeat split.
        -- simpl. now rewrite E.
        -- now constructor.
        -- exact Hm.
        -- intros a' rest' E' Ha' Hlen. destruct a' as [|y a'];
             [simpl in Hlen; lia|].
           simpl in E'. injection E' as <- E'.
           apply Forall_cons in Ha' as [_ Ha'].
           apply (Hmax a' rest' E' Ha'). simpl in Hlen. lia.
      * apply (Hstop _ _ _ _ _ H).
        intros a' rest' E' Ha' Hlen. destruct a' as [|y a'];
          [simpl in Hlen; lia|].
        simpl in E'. injection E' as <- E'.
        apply Forall_cons in Ha' as [_ Ha'].
        exact (star_all_fail cls re _ _ Hs a' rest' E' Ha').
    + apply (Hstop _ _ _ _ _ H).
      intros a' rest' E' Ha' Hlen. destruct a' as [|y a'];
        [simpl in Hlen; lia|].
      simpl in E'. injection E' as <- E'.
      apply Forall_cons in Ha' as [Hy _]. rewrite Hy in Hx. discriminate.
Qed.

Lemma lit_then (s : list ascii) (re : regexp.Regexp) prev inp w g r :
  regexp.match_here (regexp.Lit s :: re) prev inp = Some (w, g, r) ->
  exists w',
    w = s ++ w' /\ inp = s ++ w' ++ r
    /\ regexp.match_here re (regexp.last_of prev s) (w' ++ r)
       = Some (w', g, r).
Proof.
  intros H. simpl in H.
  destruct (regexp.strip_prefix s inp) as [rest|] eqn:Hs; [|discriminate].
  destruct (regexp.match_here re (regexp.last_of prev s) rest)
    as [[[w' g'] r']|] eqn:Hm; [|discriminate].
  injection H as <- <- <-. apply strip_prefix_Some in Hs as ->.
  pose proof (match_here_sound _ _ _ _ _ _ Hm) as [_ ->].
  exists w'. repeat split. exact Hm.
Qed.

(** X13.  Of several assignments on the line of the statement the last
    one is taken: the key is that of an assignment after the brace, and
    no assignment matches further on in the same line. *)
Theorem GetAPIKey_last_on_line
  (fs : FileSystem) (o : Opt.t) (buf : list ascii) :
  Opt.APIKey o = "" -> fs conf_path = Some buf -> Opt.GetAPIKey fs o <> "" ->
  exists pre a b t post,
    buf = (pre ++ lit_open ++ a ++ lit_brace) ++ b ++ t ++ post
    /\ regexp.match_here assignment_re
         (regexp.last_of None ((pre ++ lit_open ++ a ++ lit_brace) ++ b))
         (t ++ post)
       = Some (t, list_ascii_of_string (Opt.GetAPIKey fs o), post)
    /\ forall b' rest',
         b ++ t ++ post = b' ++ rest' ->
         newline ∉ b' -> (length b < length b')%nat ->
         regexp.match_here assignment_re
           (regexp.last_of None ((pre ++ lit_open ++ a ++ lit_brace) ++ b'))
           rest'
         = None.
Proof.
  intros Hkey Hfs Hne.
  pose proof (GetAPIKey_leftmost fs o buf Hkey Hfs) as Hg.
  destruct (regexp.find_from apiKeyRegexp None buf) as [[k [[w g] r]]|] eqn:Hf;
    [|contradiction].
  rewrite Hg, list_ascii_of_string_of_list_ascii.
  destruct (find_from_Some _ _ _ _ _ _ _ Hf) as (pre & _ & E & Hh & _).
  unfold apiKeyRegexp in Hh.
  apply lit_then in Hh as (w1 & -> & _ & Hh).
  apply star_greedy in Hh as (a & w2 & -> & _ & _ & Hh & _).
  apply lit_then in Hh as (w3 & -> & _ & Hh).
  apply star_greedy in Hh as (b & t & -> & E3 & _ & Hh & Hmax).
  exists pre, a, b, t, r. split; [|split].
  - rewrite E, <- !app_assoc. reflexivity.
  - rewrite !last_of_app. exact Hh.
  - intros b' rest' E' Hnl Hlen.
    rewrite !last_of_app.
    apply (Hmax b' rest').
    + rewrite <- E'. now rewrite <- app_assoc.
    + apply Forall_forall. intros c Hc.
      unfold regexp.any_char_not_nl.
      destruct (Ascii.eqb_spec c newline) as [->|]; [contradiction|reflexivity].
    + exact Hlen.
Qed.

Lemma GetAPIKey_last_on_line_witness :
  Opt.GetAPIKey (conf_only conf_two_on_line) default_Opt = "b"
  /\ exists pre a b t post,
       conf_two_on_line = (pre ++ lit_open ++ a ++ lit_brace) ++ b ++ t ++ post
       /\ regexp.match_here assignment_re
            (regexp.last_of None ((pre ++ lit_open ++ a ++ lit_brace) ++ b))
            (t ++ post)
          = Some (t,
                  list_ascii_of_string
                    (Opt.GetAPIKey (conf_only conf_two_on_line) default_Opt),
                  post)
       /\ forall b' rest',
            b ++ t ++ post = b' ++ rest' ->
            newline ∉ b' -> (length b < length b')%nat ->
            regexp.match_here assignment_re
              (regexp.last_of None ((pre ++ lit_open ++ a ++ lit_brace) ++ b'))
              rest'
            = None.
Proof.
  split; [vm_compute; reflexivity|].
  apply (GetAPIKey_last_on_line (conf_only conf_two_on_line) default_Opt
           conf_two_on_line); [reflexivity|reflexivity|].
  vm_compute. discriminate.
Defined.

(** ** [Plugin.GraphDefinition]: the label of an ASCII prefix *)

Lemma isSeparator_ascii (u : UnicodeTables) (p : ascii) :
  is_ascii p = true ->
  strings.isSeparator u (byte_val p) = negb (regexp.is_word_char p).
Proof.
  destruct p as [[|] [|] [|] [|] [|] [|] [|] [|]];
    try (intros H; vm_compute in H; discriminate H);
    intros _; vm_compute; reflexivity.
Qed.

Lemma title_step_ascii (u : UnicodeTables) (c : ascii) :
  is_ascii c = true ->
  utf8.EncodeRune (unicode.ToTitle u (byte_val c))
  = String (if is_lower c then upper c else c) ""
  /\ utf8.EncodeRune (byte_val c) = String c ""
  /\ (0 <=? unicode.ToTitle u (byte_val c)) = true
  /\ (0 <=? byte_val c) = true.
Proof.
  destruct c as [[|] [|] [|] [|] [|] [|] [|] [|]];
    try (intros H; vm_compute in H; discriminate H);
    intros _; vm_compute; repeat split.
Qed.

Lemma DecodeRune_ascii (c : ascii) (s : string) :
  is_ascii c = true ->
  utf8.DecodeRuneInString (String c s) = (byte_val c, 1%nat).
Proof.
  unfold is_ascii, utf8.DecodeRuneInString. intros ->. reflexivity.
Qed.

Lemma Title_from_ascii (u : UnicodeTables) :
  forall (s : string) (fuel : nat) (p : ascii),
    string_forallb is_ascii s = true -> is_ascii p = true ->
    (String.length s <= fuel)%nat ->
    strings.Title_from u fuel (byte_val p) s
    = title_bytes (negb (regexp.is_word_char p)) s.
Proof.
  induction s as [|c s IH]; intros fuel p Hs Hp Hlen.
  - destruct fuel; reflexivity.
  - destruct fuel as [|fuel]; [simpl in Hlen; lia|].
    simpl in Hs. apply andb_prop in Hs as [Hc Hs].
    cbn [strings.Title_from]. rewrite (DecodeRune_ascii c s Hc).
    cbn [strings.drop_bytes].
    destruct (title_step_ascii u c Hc) as (Ht & He & Hpos & Hpos').
    rewrite (isSeparator_ascii u p Hp). rewrite (IH fuel c Hs Hc) by (simpl in Hlen; lia).
    cbn [title_bytes].
    destruct (negb (regexp.is_word_char p)).
    + rewrite Hpos, Ht. cbn [andb]. reflexivity.
    + rewrite Hpos', He. cbn [andb]. reflexivity.
Qed.

Lemma title_bytes_length (s : string) :
  forall sep, String.length (title_bytes sep s) = String.length s.
Proof.
  induction s as [|c s IH]; intros sep; [reflexivity|].
  simpl. now rewrite IH.
Qed.

Lemma upper_facts (c : ascii) :
  is_lower c = true ->
  is_lower (upper c) = false
  /\ regexp.is_word_char (upper c) = true
  /\ regexp.is_word_char c = true.
Proof.
  destruct c as [[|] [|] [|] [|] [|] [|] [|] [|]]; vm_compute;
    intros H; try discriminate H; repeat split.
Qed.

Lemma title_bytes_idempotent (s : string) :
  forall sep, title_bytes sep (title_bytes sep s) = title_bytes sep s.
Proof.
  induction s as [|c s IH]; intros sep; [reflexivity|].
  cbn [title_bytes].
  destruct (sep && is_lower c) eqn:E.
  - apply andb_prop in E as [-> Hl].
    destruct (upper_facts c Hl) as (H1 & H2 & H3).
    rewrite H1, H2, H3. cbn [andb negb]. now rewrite IH.
  - rewrite E. now rewrite IH.
Qed.

(** X14.  For a prefix of ASCII bytes the title case of the labels is
    that of the bytes: every lower-case letter that begins a word (at the
    start, or after a byte that is not a letter, a digit or an underscore)
    is put in upper case, and nothing else changes.  The length is kept,
    and a prefix in title case is left as it is. *)
Theorem Title_of_ascii_prefix (u : UnicodeTables) (prefix : string) :
  string_forallb is_ascii prefix = true ->
  strings.Title u prefix = title_bytes true prefix
  /\ String.length (strings.Title u prefix) = String.length prefix
  /\ title_bytes true (strings.Title u prefix) = strings.Title u prefix
  /\ mp.Label <$> (Plugin.GraphDefinition u (with_Prefix prefix) !! "cache")
     = Some (title_bytes true prefix +:+ ": Packet Cache").
Proof.
  intros Hs.
  assert (H : strings.Title u prefix = title_bytes true prefix).
  { unfold strings.Title.
    exact (Title_from_ascii u prefix (String.length prefix) " " Hs eq_refl
             (le_n _)). }
  split; [exact H|]. rewrite H. split; [apply title_bytes_length|].
  split; [apply title_bytes_idempotent|].
  unfold Plugin.GraphDefinition. cbn [Plugin.Prefix with_Prefix]. rewrite H.
  generalize (title_bytes true prefix). intros l. vm_compute. reflexivity.
Qed.

Lemma Title_of_ascii_prefix_witness :
  strings.Title
    {| CaseRanges_title := fun r => r; table_IsLetter := fun _ => false;
       table_IsDigit := fun _ => false; table_IsSpace := fun _ => false |}
    "my-dns_dist 2x"
  = "My-Dns_dist 2x".
Proof.
  apply (Title_of_ascii_prefix
           {| CaseRanges_title := fun r => r; table_IsLetter := fun _ => false;
              table_IsDigit := fun _ => false; table_IsSpace := fun _ => false |}
           "my-dns_dist 2x").
  reflexivity.
Defined.
